(** * Frame sequencer: a shallow embedding of the sprite-sheet stepper

    The repository holds three revisions of one JavaScript class that steps
    through the frames of a sprite sheet by rewriting a CSS transform:

    - [StepAnimation], version 0.0.3  (src/unnamed/part_000);
    - [SpriteSequence], version 0.0.2 (src/src/imagesequence.js, first document);
    - [SpriteSequence], version 0.0.1 (src/src/imagesequence.js, second document).

    Versions 0.0.3 and 0.0.2 differ only in their constant tables and in the
    helper that infers the direction; they are embedded once, indexed by a
    [revision].  Version 0.0.1 is embedded apart, in [Legacy]. *)

From Stdlib Require Import ZArith NArith QArith Lqa Lia List String Bool.
From Stdlib Require Import Qround.
Import ListNotations.

Set Warnings "-register-all".

(** ** The JavaScript run time the class relies on *)

Module JS.

(** JavaScript numbers.  Finite values are exact rationals: the rounding of
    IEEE doubles is not modelled, and neither is the sign of zero (the only
    divisor in the program is an [offsetWidth] or [offsetHeight], a
    non-negative integer).  Infinities and NaN are kept, since a division by
    a zero extent produces them. *)
Inductive number : Type :=
| Fin (q : Q)
| PosInfinity
| NegInfinity
| NaN.

Definition of_N (n : N) : number := Fin (inject_Z (Z.of_N n)).

Definition signed_infinity (positive : bool) : number :=
  if positive then PosInfinity else NegInfinity.

Definition neg (x : number) : number :=
  match x with
  | Fin q => Fin (- q)
  | PosInfinity => NegInfinity
  | NegInfinity => PosInfinity
  | NaN => NaN
  end.

Definition add (x y : number) : number :=
  match x, y with
  | NaN, _ | _, NaN => NaN
  | Fin a, Fin b => Fin (a + b)
  | PosInfinity, NegInfinity | NegInfinity, PosInfinity => NaN
  | PosInfinity, _ | _, PosInfinity => PosInfinity
  | NegInfinity, _ | _, NegInfinity => NegInfinity
  end.

Definition sub (x y : number) : number := add x (neg y).

Definition mul (x y : number) : number :=
  match x, y with
  | NaN, _ | _, NaN => NaN
  | Fin a, Fin b => Fin (a * b)
  | Fin a, PosInfinity | PosInfinity, Fin a =>
      if Qeq_bool a 0 then NaN else signed_infinity (Qle_bool 0 a)
  | Fin a, NegInfinity | NegInfinity, Fin a =>
      if Qeq_bool a 0 then NaN else signed_infinity (negb (Qle_bool 0 a))
  | PosInfinity, PosInfinity | NegInfinity, NegInfinity => PosInfinity
  | PosInfinity, NegInfinity | NegInfinity, PosInfinity => NegInfinity
  end.

Definition div (x y : number) : number :=
  match x, y with
  | NaN, _ | _, NaN => NaN
  | Fin a, Fin b =>
      if Qeq_bool b 0
      then (if Qeq_bool a 0 then NaN else signed_infinity (Qle_bool 0 a))
      else Fin (a / b)
  | Fin _, (PosInfinity | NegInfinity) => Fin 0
  | PosInfinity, Fin b => signed_infinity (Qle_bool 0 b)
  | NegInfinity, Fin b => signed_infinity (negb (Qle_bool 0 b))
  | (PosInfinity | NegInfinity), (PosInfinity | NegInfinity) => NaN
  end.

(** [x <= y]; every comparison with NaN is false. *)
Definition le (x y : number) : bool :=
  match x, y with
  | NaN, _ | _, NaN => false
  | Fin a, Fin b => Qle_bool a b
  | NegInfinity, _ | _, PosInfinity => true
  | PosInfinity, _ | _, NegInfinity => false
  end.

Definition ge (x y : number) : bool := le y x.

(** Two numbers denote the same value ([Q] has several terms per rational). *)
Definition same_value (x y : number) : Prop :=
  match x, y with
  | Fin a, Fin b => a == b
  | PosInfinity, PosInfinity | NegInfinity, NegInfinity | NaN, NaN => True
  | _, _ => False
  end.

(** A finite number without fractional part. *)
Definition is_integer (x : number) : bool :=
  match x with
  | Fin q => (Qnum q mod Zpos (Qden q) =? 0)%Z
  | _ => false
  end.

(** Exceptions carry the [name] of the error object. *)
Record Error : Type := mkError { name : string }.

Definition TypeError : Error := {| name := "TypeError" |}.

(** The outcome of running a piece of code: it returns or it throws. *)
Inductive completion (A : Type) : Type :=
| Normal (a : A)
| Throw (e : Error).
Arguments Normal {A} a.
Arguments Throw {A} e.

Definition bind {A B : Type} (m : completion A) (k : A -> completion B)
  : completion B :=
  match m with
  | Normal a => k a
  | Throw e => Throw e
  end.

(** Reading a property of [r]: a TypeError when [r] is [null]. *)
Definition deref {A : Type} (r : option A) : completion A :=
  match r with
  | Some a => Normal a
  | None => Throw TypeError
  end.

(** The value of [style.transform].  [TranslateMinus a o] stands for the
    text produced by the template literal [translate<a>(-${o}px)]: the
    minus sign is part of the template, [o] is interpolated after it. *)
Inductive axis : Type := X | Y.

Inductive css_transform : Type :=
| TranslateMinus (a : axis) (offset : number).

(** The part of the DOM the class reads and writes: measured extents, the
    class list, the inline transform and, for [querySelector], the child
    elements.  [offsetWidth] and [offsetHeight] are non-negative integers. *)
Inductive HTMLElement : Type := mkElement {
  offsetWidth : N;
  offsetHeight : N;
  classList : list string;
  style_transform : option css_transform;
  children : list HTMLElement
}.

(** [DOMTokenList]: [contains], [add] (no duplicates) and [remove]. *)
Definition contains (token : string) (l : list string) : bool :=
  existsb (String.eqb token) l.

Definition classList_add (token : string) (l : list string) : list string :=
  if contains token l then l else l ++ [token].

Definition classList_remove (token : string) (l : list string) : list string :=
  filter (fun t => negb (String.eqb token t)) l.

(** [e.querySelector('.' + cls)]: the first descendant of [e], in document
    order, that carries the class; [None] is [null]. *)
Fixpoint querySelector_class (cls : string) (e : HTMLElement)
  : option HTMLElement :=
  (fix first (l : list HTMLElement) : option HTMLElement :=
     match l with
     | [] => None
     | c :: l' =>
         if contains cls (classList c) then Some c
         else match querySelector_class cls c with
              | Some d => Some d
              | None => first l'
              end
     end) (children e).

(** Repeating timers of the window: the live handles with their delay, and
    the next handle [setInterval] will hand out.  The only callback the
    class ever registers is its own [_nextOrPrevious]. *)
Record Window : Type := mkWindow {
  timers : list (nat * number);
  next_handle : nat
}.

Definition setInterval (delay : number) (w : Window) : nat * Window :=
  (next_handle w,
   {| timers := (next_handle w, delay) :: timers w;
      next_handle := S (next_handle w) |}).

Definition clearInterval (handle : option nat) (w : Window) : Window :=
  match handle with
  | None => w
  | Some h =>
      {| timers := filter (fun t => negb (Nat.eqb (fst t) h)) (timers w);
         next_handle := next_handle w |}
  end.

Definition timer_live (h : nat) (w : Window) : bool :=
  existsb (fun t => Nat.eqb (fst t) h) (timers w).

End JS.

Import JS.

Declare Scope js_scope.
Delimit Scope js_scope with js.
Notation "x <- m ;; k" := (bind m (fun x => k))
  (at level 61, m at next level, right associativity) : js_scope.
Open Scope js_scope.
Open Scope string_scope.

(** ** The class, versions 0.0.3 and 0.0.2 *)

Module Sequencer.

Inductive revision : Type :=
| StepAnimation_0_0_3     (* src/unnamed/part_000 *)
| SpriteSequence_0_0_2.   (* src/src/imagesequence.js, lines 1-420 *)

(** The constant table: [CONSTANTS.CSS_CLASS.*], [CONSTANTS.DIRECTION.*] and
    [CONSTANTS.INTERVAL] in 0.0.3; [CLASS_NAME_*] and [DIRECTION_*] in 0.0.2,
    whose constructor spells its defaults [300] and ['auto'] as literals. *)
Record Constants : Type := mkConstants {
  CSS_CLASS_ACTIVE : string;
  CSS_CLASS_HORIZONTAL : string;
  CSS_CLASS_VERTICAL : string;
  CSS_CLASS_REVERSED : string;
  CSS_CLASS_GRAPHIC : string;
  DIRECTION_AUTO : string;
  DIRECTION_HORIZONTAL : string;
  DIRECTION_VERTICAL : string;
  DIRECTION_DEFAULT : string;
  INTERVAL : number
}.

Definition CONSTANTS (rev : revision) : Constants :=
  match rev with
  | StepAnimation_0_0_3 =>
      {| CSS_CLASS_ACTIVE := "stepanimation--active";
         CSS_CLASS_HORIZONTAL := "stepanimation--horizontal";
         CSS_CLASS_VERTICAL := "stepanimation--vertical";
         CSS_CLASS_REVERSED := "stepanimation--reversed";
         CSS_CLASS_GRAPHIC := "stepanimation__graphic";
         DIRECTION_AUTO := "auto";
         DIRECTION_HORIZONTAL := "horizontal";
         DIRECTION_VERTICAL := "vertical";
         DIRECTION_DEFAULT := "vertical";
         INTERVAL := Fin 300 |}
  | SpriteSequence_0_0_2 =>
      {| CSS_CLASS_ACTIVE := "spritesequencer--active";
         CSS_CLASS_HORIZONTAL := "spritesequencer--horizontal";
         CSS_CLASS_VERTICAL := "spritesequencer--vertical";
         CSS_CLASS_REVERSED := "spritesequencer--reversed";
         CSS_CLASS_GRAPHIC := "spritesequencer__graphic";
         DIRECTION_AUTO := "auto";
         DIRECTION_HORIZONTAL := "horizontal";
         DIRECTION_VERTICAL := "vertical";
         DIRECTION_DEFAULT := "vertical";
         INTERVAL := Fin 300 |}
  end.

Record FrameInfo : Type := mkFrameInfo {
  width : number;
  height : number;
  count : number
}.

Record Elements : Type := mkElements {
  container : HTMLElement;
  graphic : option HTMLElement      (* [?HTMLElement]: [None] is [null] *)
}.

(** The fields of an instance.  The two DOM elements an instance refers to
    are reached through the instance only, so their state is kept with it. *)
Record StepAnimation : Type := mkStepAnimation {
  elements : Elements;
  _interval : number;
  _direction : string;
  _reversed : bool;
  _active : bool;
  _timer : option nat;              (* [null] or a handle of [setInterval] *)
  _frameInfo : FrameInfo;
  _frame : number
}.

(** Field assignments [this.f = v]. *)
Definition set_interval_field (v : number) (this : StepAnimation) :=
  mkStepAnimation (elements this) v (_direction this) (_reversed this)
    (_active this) (_timer this) (_frameInfo this) (_frame this).

Definition set_direction (v : string) (this : StepAnimation) :=
  mkStepAnimation (elements this) (_interval this) v (_reversed this)
    (_active this) (_timer this) (_frameInfo this) (_frame this).

Definition set_active (v : bool) (this : StepAnimation) :=
  mkStepAnimation (elements this) (_interval this) (_direction this)
    (_reversed this) v (_timer this) (_frameInfo this) (_frame this).

Definition set_timer (v : option nat) (this : StepAnimation) :=
  mkStepAnimation (elements this) (_interval this) (_direction this)
    (_reversed this) (_active this) v (_frameInfo this) (_frame this).

Definition set_frameInfo (v : FrameInfo) (this : StepAnimation) :=
  mkStepAnimation (elements this) (_interval this) (_direction this)
    (_reversed this) (_active this) (_timer this) v (_frame this).

Definition set_frame (v : number) (this : StepAnimation) :=
  mkStepAnimation (elements this) (_interval this) (_direction this)
    (_reversed this) (_active this) (_timer this) (_frameInfo this) v.

Definition set_graphic (g : HTMLElement) (this : StepAnimation) :=
  mkStepAnimation (mkElements (container (elements this)) (Some g))
    (_interval this) (_direction this) (_reversed this) (_active this)
    (_timer this) (_frameInfo this) (_frame this).

(** [this.elements.container.classList.add(c)] and [.remove(c)]. *)
Definition with_classList (f : list string -> list string)
  (this : StepAnimation) : StepAnimation :=
  let c := container (elements this) in
  mkStepAnimation
    (mkElements
       (mkElement (offsetWidth c) (offsetHeight c) (f (classList c))
          (style_transform c) (children c))
       (graphic (elements this)))
    (_interval this) (_direction this) (_reversed this) (_active this)
    (_timer this) (_frameInfo this) (_frame this).

Definition container_classList_add (c : string) := with_classList (classList_add c).
Definition container_classList_remove (c : string) := with_classList (classList_remove c).

(** [static transform(element, value)]: [element.style.transform = value]. *)
Definition transform (element : option HTMLElement) (value : css_transform)
  : completion HTMLElement :=
  e <- deref element ;;
  Normal (mkElement (offsetWidth e) (offsetHeight e) (classList e)
            (Some value) (children e)).

Section Class.

Variable rev : revision.
Let K := CONSTANTS rev.

(** 0.0.3, [_getContentDirection(spritesheet)]. *)
Definition _getContentDirection (spritesheet : option HTMLElement)
  : completion string :=
  s <- deref spritesheet ;;
  if (offsetHeight s <? offsetWidth s)%N then Normal (DIRECTION_HORIZONTAL K)
  else if (offsetWidth s <? offsetHeight s)%N then Normal (DIRECTION_VERTICAL K)
  else Normal (DIRECTION_DEFAULT K).

(** 0.0.2, [_calculateDirection()]. *)
Definition _calculateDirection (this : StepAnimation) : completion string :=
  g <- deref (graphic (elements this)) ;;
  if (offsetHeight g <? offsetWidth g)%N then Normal (DIRECTION_HORIZONTAL K)
  else Normal (DIRECTION_VERTICAL K).

Definition _isHorizontal (this : StepAnimation) : bool :=
  String.eqb (_direction this) (DIRECTION_HORIZONTAL K).

Definition _getFrameCount (this : StepAnimation) : completion number :=
  let container := container (elements this) in
  let graphic := graphic (elements this) in
  if _isHorizontal this then
    g <- deref graphic ;;
    Normal (sub (div (of_N (offsetWidth g)) (of_N (offsetWidth container))) (Fin 1))
  else
    g <- deref graphic ;;
    Normal (sub (div (of_N (offsetHeight g)) (of_N (offsetHeight container))) (Fin 1)).

Definition _initialFrame (this : StepAnimation) : number :=
  if _reversed this then count (_frameInfo this) else Fin 0.

Definition _frameInRange (this : StepAnimation) (frame : number) : bool :=
  ge frame (Fin 0) && le frame (count (_frameInfo this)).

(** The constructor.  An omitted argument is [None] and takes its default.
    [_frameInfo] and [_frame] are unassigned until the last two
    statements; nothing reads them before, so the placeholder they hold
    until then is never observed. *)
Definition constructor (container : HTMLElement)
  (opt_interval : option number) (opt_direction : option string)
  (opt_reverse : option bool) : completion StepAnimation :=
  let opt_interval := match opt_interval with Some i => i | None => INTERVAL K end in
  let opt_direction := match opt_direction with Some d => d | None => DIRECTION_AUTO K end in
  let opt_reverse := match opt_reverse with Some r => r | None => false end in
  let this :=
    {| elements :=
         {| container := container;
            graphic := querySelector_class (CSS_CLASS_GRAPHIC K) container |};
       _interval := opt_interval;
       _direction := opt_direction;
       _reversed := opt_reverse;
       _active := false;
       _timer := None;
       _frameInfo := mkFrameInfo NaN NaN NaN;
       _frame := NaN |} in
  this <- (if String.eqb (_direction this) (DIRECTION_AUTO K) then
             d <- match rev with
                  | StepAnimation_0_0_3 =>
                      _getContentDirection (graphic (elements this))
                  | SpriteSequence_0_0_2 => _calculateDirection this
                  end ;;
             Normal (set_direction d this)
           else Normal this) ;;
  let this :=
    if _reversed this then container_classList_add (CSS_CLASS_REVERSED K) this
    else this in
  let this :=
    if _isHorizontal this then container_classList_add (CSS_CLASS_HORIZONTAL K) this
    else container_classList_add (CSS_CLASS_VERTICAL K) this in
  n <- _getFrameCount this ;;
  let this :=
    set_frameInfo
      {| width := of_N (offsetWidth container);
         height := of_N (offsetHeight container);
         count := n |} this in
  Normal (set_frame (_initialFrame this) this).

(** [start(opt_frame)]. *)
Definition start (opt_frame : option number) (w : Window) (this : StepAnimation)
  : Window * StepAnimation :=
  if _active this then (w, this)
  else
    let (handle, w) := setInterval (_interval this) w in
    let this := set_timer (Some handle) this in
    let this := container_classList_add (CSS_CLASS_ACTIVE K) this in
    (w, set_active true this).

(** [stop()]. *)
Definition stop (w : Window) (this : StepAnimation) : Window * StepAnimation :=
  if negb (_active this) then (w, this)
  else
    let w := clearInterval (_timer this) w in
    let this := container_classList_remove (CSS_CLASS_ACTIVE K) this in
    (w, set_active false this).

(** [set interval(interval)]. *)
Definition set_interval (interval : number) (w : Window) (this : StepAnimation)
  : Window * StepAnimation :=
  let (w, this) := stop w this in
  let this := set_interval_field interval this in
  start None w this.

Definition _calculateNextTransform (this : StepAnimation)
  : completion StepAnimation :=
  let this :=
    if negb (_frameInRange this (_frame this))
    then set_frame (_initialFrame this) this else this in
  let offset := mul (_frame this) (height (_frameInfo this)) in
  let value :=
    if _isHorizontal this then TranslateMinus X offset
    else TranslateMinus Y offset in
  g <- transform (graphic (elements this)) value ;;
  Normal (set_graphic g this).

Definition previous (this : StepAnimation) : completion StepAnimation :=
  let this := set_frame (sub (_frame this) (Fin 1)) this in
  _calculateNextTransform this.

Definition next (this : StepAnimation) : completion StepAnimation :=
  let this := set_frame (add (_frame this) (Fin 1)) this in
  _calculateNextTransform this.

Definition _nextOrPrevious (this : StepAnimation) : completion StepAnimation :=
  if _reversed this then previous this else next this.

(** What can happen to an instance: a call of a public method, an
    assignment to [interval], or the firing of a timer of the window. *)
Inductive call : Type :=
| Start (opt_frame : option number)
| Stop
| Previous
| Next
| SetInterval (interval : number)
| Tick (handle : nat).

Definition run_call (c : call) (st : Window * StepAnimation)
  : completion (Window * StepAnimation) :=
  let (w, this) := st in
  match c with
  | Start opt_frame => Normal (start opt_frame w this)
  | Stop => Normal (stop w this)
  | Previous => this <- previous this ;; Normal (w, this)
  | Next => this <- next this ;; Normal (w, this)
  | SetInterval interval => Normal (set_interval interval w this)
  | Tick handle =>
      if timer_live handle w
      then this <- _nextOrPrevious this ;; Normal (w, this)
      else Normal (w, this)
  end.

Fixpoint run (cs : list call) (st : Window * StepAnimation)
  : completion (Window * StepAnimation) :=
  match cs with
  | [] => Normal st
  | c :: cs' => st <- run_call c st ;; run cs' st
  end.

(** [n] calls in a row of one stepping method. *)
Fixpoint repeat_step (step : StepAnimation -> completion StepAnimation)
  (n : nat) (this : StepAnimation) : completion StepAnimation :=
  match n with
  | O => Normal this
  | S n' => this <- step this ;; repeat_step step n' this
  end.

End Class.

End Sequencer.

(** ** The class, version 0.0.1 *)

Module Legacy.

Import Sequencer.

(** [SpriteSequence.CONSTANTS()] of src/src/imagesequence.js, lines 464-475. *)
Definition CLASS_NAME_ACTIVE : string := "spritesequencer--active".
Definition CLASS_NAME_HORIZONTAL : string := "spritesequencer--horizontal".
Definition CLASS_NAME_VERTICAL : string := "spritesequencer--vertical".
Definition DIRECTION_AUTO : string := "auto".
Definition DIRECTION_HORIZONTAL : string := "horizontal".
Definition DIRECTION_VERTICAL : string := "vertical".
Definition DIRECTION_DEFAULT : string := "vertical".

(** [_calculateDirection()], lines 750-761. *)
Definition _calculateDirection (this : StepAnimation) : completion string :=
  g <- deref (graphic (elements this)) ;;
  if (offsetHeight g <? offsetWidth g)%N then Normal DIRECTION_VERTICAL
  else Normal DIRECTION_HORIZONTAL.

(** The constructor, lines 517-595.  The instance has the fields of the later
    versions; those assigned after their first use hold a placeholder until
    then, which nothing reads. *)
Definition constructor (container : HTMLElement)
  (opt_interval : option number) (opt_direction : option string)
  (opt_reverse : option bool) : completion StepAnimation :=
  let opt_interval := match opt_interval with Some i => i | None => Fin 300 end in
  let opt_direction := match opt_direction with Some d => d | None => "auto" end in
  let opt_reverse := match opt_reverse with Some r => r | None => false end in
  let this :=
    {| elements :=
         {| container := container;
            graphic := querySelector_class "spritesequencer__graphic" container |};
       _interval := opt_interval;
       _direction := opt_direction;
       _reversed := false;
       _active := false;
       _timer := None;
       _frameInfo := mkFrameInfo NaN NaN NaN;
       _frame := NaN |} in
  this <- (if String.eqb (_direction this) DIRECTION_AUTO then
             d <- _calculateDirection this ;; Normal (set_direction d this)
           else Normal this) ;;
  let this :=
    mkStepAnimation (elements this) (_interval this) (_direction this)
      opt_reverse (_active this) (_timer this) (_frameInfo this) (_frame this) in
  let this := set_frame (Fin 0) this in
  g <- deref (graphic (elements this)) ;;
  let this :=
    set_frameInfo
      {| width := of_N (offsetWidth container);
         height := of_N (offsetHeight container);
         count := sub (div (of_N (offsetWidth g)) (of_N (offsetWidth container))) (Fin 1) |}
      this in
  Normal (set_timer None (set_active false this)).

(** [_frameIsInRange(frame)], lines 737-739. *)
Definition _frameIsInRange (this : StepAnimation) (frame : number) : bool :=
  ge frame (Fin 0) && le frame (count (_frameInfo this)).

(** [_calculateNextFrame()], lines 710-722. *)
Definition _calculateNextFrame (this : StepAnimation) : completion StepAnimation :=
  let this :=
    if negb (_frameIsInRange this (_frame this))
    then set_frame (if _reversed this then count (_frameInfo this) else Fin 0) this
    else this in
  let y := mul (_frame this) (height (_frameInfo this)) in
  let transformValue :=
    if String.eqb (_direction this) "horizontal" then TranslateMinus Y y
    else TranslateMinus X y in
  g <- deref (graphic (elements this)) ;;
  Normal (set_graphic
            (mkElement (offsetWidth g) (offsetHeight g) (classList g)
               (Some transformValue) (children g))
            this).

(** [previous()], lines 693-696, and [next()], lines 705-708. *)
Definition previous (this : StepAnimation) : completion StepAnimation :=
  let this := set_frame (sub (_frame this) (Fin 1)) this in
  _calculateNextFrame this.

Definition next (this : StepAnimation) : completion StepAnimation :=
  let this := set_frame (add (_frame this) (Fin 1)) this in
  _calculateNextFrame this.

(** [_nextOrPrevious()], lines 682-684. *)
Definition _nextOrPrevious (this : StepAnimation) : completion StepAnimation :=
  if _reversed this then previous this else next this.

End Legacy.

Import Sequencer.

(** ** Sample documents *)

(** A leaf element without classes. *)
Definition box (w h : N) : HTMLElement := mkElement w h [] None [].

(** A [w] x [h] container whose only child is a [gw] x [gh] sprite sheet
    carrying the class [cls]. *)
Definition sheet_in_container (cls : string) (w h gw gh : N) : HTMLElement :=
  mkElement w h [] None [mkElement gw gh [cls] None []].

Definition stepanimation_markup (w h gw gh : N) : HTMLElement :=
  sheet_in_container (CSS_CLASS_GRAPHIC (CONSTANTS StepAnimation_0_0_3)) w h gw gh.

Definition spritesequencer_markup (w h gw gh : N) : HTMLElement :=
  sheet_in_container (CSS_CLASS_GRAPHIC (CONSTANTS SpriteSequence_0_0_2)) w h gw gh.

Definition markup (rev : revision) : N -> N -> N -> N -> HTMLElement :=
  sheet_in_container (CSS_CLASS_GRAPHIC (CONSTANTS rev)).

Definition fresh_window : Window := mkWindow [] 1.

(** The instance a constructor call returns; [NaN]-filled when it throws. *)
Definition returned (m : completion StepAnimation) : StepAnimation :=
  match m with
  | Normal this => this
  | Throw _ =>
      mkStepAnimation (mkElements (box 0 0) None) NaN EmptyString false false None
        (mkFrameInfo NaN NaN NaN) NaN
  end.

(** Container 100 x 100, sheet 500 x 100, every argument omitted. *)
Definition five_frames (rev : revision) : StepAnimation :=
  returned (constructor rev (markup rev 100 100 500 100) None None None).

(** The same document, played in reverse. *)
Definition five_frames_reversed (rev : revision) : StepAnimation :=
  returned (constructor rev (markup rev 100 100 500 100) None None (Some true)).

(** ** Vocabulary of the statements *)

(** The reverse flag the constructor stores for an optional argument. *)
Definition default_reverse (opt_reverse : option bool) : bool :=
  match opt_reverse with Some r => r | None => false end.

(** The direction that the three-way comparison of 0.0.3 and the two-way one
    of 0.0.2 both infer from the sheet. *)
Definition inferred_direction (g : HTMLElement) : string :=
  if (offsetHeight g <? offsetWidth g)%N then "horizontal" else "vertical".

Definition resolved_direction (opt_direction : option string) (g : HTMLElement)
  : string :=
  match opt_direction with
  | Some d => if String.eqb d "auto" then inferred_direction g else d
  | None => inferred_direction g
  end.

(** The extent of an element along the axis of an instance. *)
Definition extent_along (rev : revision) (this : StepAnimation) (e : HTMLElement) : N :=
  if _isHorizontal rev this then offsetWidth e else offsetHeight e.

(** The frame [_calculateNextTransform] settles on. *)
Definition settled_frame (this : StepAnimation) : number :=
  if _frameInRange this (_frame this) then _frame this else _initialFrame this.

(** The transform [_calculateNextTransform] writes to the sheet. *)
Definition written_transform (rev : revision) (this : StepAnimation) : css_transform :=
  TranslateMinus (if _isHorizontal rev this then X else Y)
    (mul (settled_frame this) (height (_frameInfo this))).

(** [this'] is [this] up to its frame and the transform of its sheet. *)
Definition stepped (this this' : StepAnimation) : Prop :=
  _frameInfo this' = _frameInfo this
  /\ _reversed this' = _reversed this
  /\ _direction this' = _direction this
  /\ _active this' = _active this
  /\ _timer this' = _timer this
  /\ _interval this' = _interval this
  /\ container (elements this') = container (elements this).

(** [this'] has the frame, the geometry and the sheet of [this]. *)
Definition same_playhead (this this' : StepAnimation) : Prop :=
  _frame this' = _frame this
  /\ _frameInfo this' = _frameInfo this
  /\ _reversed this' = _reversed this
  /\ _direction this' = _direction this
  /\ graphic (elements this') = graphic (elements this).

(** The wrap invariant: the sheet is there, the count is not negative and the
    frame passes [_frameInRange]. *)
Definition in_range (this : StepAnimation) : Prop :=
  graphic (elements this) <> None
  /\ le (Fin 0) (count (_frameInfo this)) = true
  /\ _frameInRange this (_frame this) = true.

(** The element [e] after [e.style.transform = value]. *)
Definition restyled (e : HTMLElement) (value : css_transform) : HTMLElement :=
  mkElement (offsetWidth e) (offsetHeight e) (classList e) (Some value) (children e).

(** ** Static helpers *)

(** The part of [Math] the class uses. *)
Module Math.

(** [Math.floor]: the largest integer not above a finite number; infinities
    and NaN are returned as they are. *)
Definition floor (x : number) : number :=
  match x with
  | Fin q => Fin (inject_Z (Qfloor q))
  | _ => x
  end.

End Math.

(** [static randomInteger(min, max)], the same in the three versions.  The
    argument [random] is the value [Math.random()] returns: a number from 0
    (inclusive) up to 1 (exclusive). *)
Definition randomInteger (random min max : number) : number :=
  add (Math.floor (mul random (add (sub max min) (Fin 1)))) min.

(** ** Vocabulary of the further properties *)

(** Every live handle of the window was handed out before [next_handle]. *)
Definition handles_below (w : Window) : Prop :=
  Forall (fun t => (fst t < next_handle w)%nat) (timers w).

(** The timer an instance holds in the window: none when idle, and when
    active its handle with the delay it was registered with. *)
Definition own_timer (this : StepAnimation) : list (nat * number) :=
  if _active this then
    match _timer this with
    | Some h => [(h, _interval this)]
    | None => []
    end
  else [].

(** The timers of the window are those of [w0] and the instance's own. *)
Definition timers_kept (w0 w : Window) (this : StepAnimation) : Prop :=
  timers w = (own_timer this ++ timers w0)%list
  /\ (next_handle w0 <= next_handle w)%nat
  /\ (_active this = true ->
      exists h, _timer this = Some h /\ (next_handle w0 <= h)%nat).

(** The container carries the active class exactly when [_active] is set. *)
Definition active_marked (rev : revision) (this : StepAnimation) : Prop :=
  contains (CSS_CLASS_ACTIVE (CONSTANTS rev)) (classList (container (elements this)))
  = _active this.

(** Calls that start, stop or retime the loop, as opposed to steps. *)
Definition is_control (c : call) : bool :=
  match c with
  | Start _ | Stop | SetInterval _ => true
  | Previous | Next | Tick _ => false
  end.

(** The orientation class the constructor puts on the container. *)
Definition orientation_class (rev : revision) (this : StepAnimation) : string :=
  if _isHorizontal rev this then CSS_CLASS_HORIZONTAL (CONSTANTS rev)
  else CSS_CLASS_VERTICAL (CONSTANTS rev).

(** The class list of the container once the constructor is through with it. *)
Definition constructed_classList (rev : revision) (horizontal reversed : bool)
  (l : list string) : list string :=
  classList_add
    (if horizontal then CSS_CLASS_HORIZONTAL (CONSTANTS rev)
     else CSS_CLASS_VERTICAL (CONSTANTS rev))
    (if reversed then classList_add (CSS_CLASS_REVERSED (CONSTANTS rev)) l else l).

(** Whether the browser keeps a translation whose interpolated offset is [o].
    The text after the minus sign of the template has to be a length: it is
    one when [o] is finite and not negative; for a negative, infinite or NaN
    offset the text does not parse and the declaration is dropped. *)
Definition valid_offset (o : number) : bool :=
  match o with
  | Fin q => Qle_bool 0 q
  | _ => false
  end.

(** A sheet is wider than it is tall. *)
Definition wider_than_tall (g : HTMLElement) : bool :=
  (offsetHeight g <? offsetWidth g)%N.

(** The window and the instance a run ends with; those it began with when it
    throws. *)
Definition outcome (rev : revision) (cs : list call) (st : Window * StepAnimation)
  : Window * StepAnimation :=
  match run rev cs st with
  | Normal s => s
  | Throw _ => st
  end.

(** The instance the constructor of 0.0.3 and 0.0.2 returns for a container
    [c] whose sheet is [g], in closed form. *)
Definition constructed (rev : revision) (c g : HTMLElement)
  (opt_interval : option number) (opt_direction : option string)
  (opt_reverse : option bool) : StepAnimation :=
  let direction := resolved_direction opt_direction g in
  let horizontal := String.eqb direction "horizontal" in
  let n :=
    sub (div (of_N (if horizontal then offsetWidth g else offsetHeight g))
             (of_N (if horizontal then offsetWidth c else offsetHeight c)))
        (Fin 1) in
  {| elements :=
       {| container :=
            mkElement (offsetWidth c) (offsetHeight c)
              (constructed_classList rev horizontal (default_reverse opt_reverse)
                 (classList c))
              (style_transform c) (children c);
          graphic := Some g |};
     _interval := match opt_interval with Some i => i | None => Fin 300 end;
     _direction := direction;
     _reversed := default_reverse opt_reverse;
     _active := false;
     _timer := None;
     _frameInfo :=
       {| width := of_N (offsetWidth c);
          height := of_N (offsetHeight c);
          count := n |};
     _frame := if default_reverse opt_reverse then n else Fin 0 |}.

(** The inline transform of the sheet, when there is one, is the translation
    of the current frame. *)
Definition transform_in_sync (rev : revision) (this : StepAnimation) : Prop :=
  match graphic (elements this) with
  | Some g =>
      style_transform g = None
      \/ style_transform g
         = Some (TranslateMinus (if _isHorizontal rev this then X else Y)
                   (mul (_frame this) (height (_frameInfo this))))
  | None => True
  end.

(** Two instances agree on everything but the class lists and the identity of
    their elements. *)
Definition alike (t1 t2 : StepAnimation) : Prop :=
  _interval t1 = _interval t2
  /\ _direction t1 = _direction t2
  /\ _reversed t1 = _reversed t2
  /\ _active t1 = _active t2
  /\ _timer t1 = _timer t2
  /\ _frameInfo t1 = _frameInfo t2
  /\ _frame t1 = _frame t2
  /\ option_map style_transform (graphic (elements t1))
     = option_map style_transform (graphic (elements t2)).

(** The direction the constructor of 0.0.1 stores. *)
Definition legacy_direction (opt_direction : option string) (g : HTMLElement)
  : string :=
  let inferred := if wider_than_tall g then "vertical" else "horizontal" in
  match opt_direction with
  | Some d => if String.eqb d "auto" then inferred else d
  | None => inferred
  end.

(** The instance the constructor of 0.0.1 returns for a container [c] whose
    sheet is [g], in closed form. *)
Definition legacy_constructed (c g : HTMLElement)
  (opt_interval : option number) (opt_direction : option string)
  (opt_reverse : option bool) : StepAnimation :=
  {| elements := {| container := c; graphic := Some g |};
     _interval := match opt_interval with Some i => i | None => Fin 300 end;
     _direction := legacy_direction opt_direction g;
     _reversed := default_reverse opt_reverse;
     _active := false;
     _timer := None;
     _frameInfo :=
       {| width := of_N (offsetWidth c);
          height := of_N (offsetHeight c);
          count := sub (div (of_N (offsetWidth g)) (of_N (offsetWidth c))) (Fin 1) |};
     _frame := Fin 0 |}.

(** The current frame and the initial frame are whole numbers. *)
Definition whole_frames (this : StepAnimation) : Prop :=
  is_integer (_frame this) = true /\ is_integer (_initialFrame this) = true.

(** ** Auxiliary facts *)

Lemma bind_Normal {A B : Type} (m : completion A) (k : A -> completion B) (b : B) :
  bind m k = Normal b -> exists a, m = Normal a /\ k a = Normal b.
Proof. destruct m as [a|e]; simpl; [eauto | discriminate]. Qed.

Lemma deref_Normal {A : Type} (r : option A) (a : A) :
  deref r = Normal a -> r = Some a.
Proof. destruct r; simpl; congruence. Qed.

Lemma le_refl_of_nonneg (x : number) : le (Fin 0) x = true -> le x x = true.
Proof.
  destruct x as [q| | |]; simpl; try easy.
  intros _. apply Qle_bool_iff. apply Qle_refl.
Qed.

(** The class-list updates of the constructor change neither the sheet nor the
    direction: a fact [H] about the instance before them holds after them. *)
Ltac past_class_updates H :=
  destruct (_reversed _), (_isHorizontal _ _); exact H.

Section Facts.
Variable rev : revision.

Lemma _getFrameCount_eq this g :
  graphic (elements this) = Some g ->
  _getFrameCount rev this =
  Normal (sub (div (of_N (extent_along rev this g))
                   (of_N (extent_along rev this (container (elements this)))))
              (Fin 1)).
Proof.
  intros Hg. unfold _getFrameCount, extent_along. rewrite Hg.
  destruct (_isHorizontal rev this); reflexivity.
Qed.

Lemma infer_direction this g :
  graphic (elements this) = Some g ->
  match rev with
  | StepAnimation_0_0_3 => _getContentDirection rev (graphic (elements this))
  | SpriteSequence_0_0_2 => _calculateDirection rev this
  end = Normal (inferred_direction g).
Proof.
  intros Hg. unfold _getContentDirection, _calculateDirection, inferred_direction.
  rewrite Hg. destruct rev; simpl;
    destruct (offsetHeight g <? offsetWidth g)%N; try reflexivity.
  destruct (offsetWidth g <? offsetHeight g)%N; reflexivity.
Qed.

Lemma infer_direction_null this :
  graphic (elements this) = None ->
  match rev with
  | StepAnimation_0_0_3 => _getContentDirection rev (graphic (elements this))
  | SpriteSequence_0_0_2 => _calculateDirection rev this
  end = Throw TypeError.
Proof.
  intros Hg. unfold _getContentDirection, _calculateDirection.
  rewrite Hg. destruct rev; reflexivity.
Qed.

Lemma _getFrameCount_null this :
  graphic (elements this) = None -> _getFrameCount rev this = Throw TypeError.
Proof.
  intros Hg. unfold _getFrameCount. rewrite Hg.
  destruct (_isHorizontal rev this); reflexivity.
Qed.

Lemma DIRECTION_AUTO_eq : DIRECTION_AUTO (CONSTANTS rev) = "auto".
Proof. destruct rev; reflexivity. Qed.

Lemma constructor_Normal c i d r this :
  constructor rev c i d r = Normal this ->
  exists g,
    querySelector_class (CSS_CLASS_GRAPHIC (CONSTANTS rev)) c = Some g
    /\ graphic (elements this) = Some g
    /\ offsetWidth (container (elements this)) = offsetWidth c
    /\ offsetHeight (container (elements this)) = offsetHeight c
    /\ _direction this = resolved_direction d g
    /\ _reversed this = default_reverse r
    /\ _active this = false
    /\ width (_frameInfo this) = of_N (offsetWidth c)
    /\ height (_frameInfo this) = of_N (offsetHeight c)
    /\ count (_frameInfo this) =
         sub (div (of_N (extent_along rev this g)) (of_N (extent_along rev this c)))
             (Fin 1)
    /\ _frame this = _initialFrame this.
Proof.
  unfold constructor. cbv zeta.
  set (this0 := mkStepAnimation _ _ _ _ _ _ _ _).
  intros H.
  apply bind_Normal in H as (this1 & H1 & H).
  apply bind_Normal in H as (n & Hn & H).
  injection H as <-.
  assert (H0 : graphic (elements this0)
               = querySelector_class (CSS_CLASS_GRAPHIC (CONSTANTS rev)) c)
    by reflexivity.
  assert (Hd0 : _direction this0
                = match d with Some x => x | None => DIRECTION_AUTO (CONSTANTS rev) end)
    by reflexivity.
  assert (Hc : container (elements this0) = c) by reflexivity.
  assert (Hr : _reversed this0 = default_reverse r) by reflexivity.
  assert (Ha : _active this0 = false) by reflexivity.
  destruct (querySelector_class _ c) as [g|] eqn:Hg.
  - exists g. split; [reflexivity|].
    assert (E : this1 = set_direction (resolved_direction d g) this0).
    { revert H1. rewrite Hd0, DIRECTION_AUTO_eq. unfold resolved_direction.
      destruct d as [x|].
      - destruct (String.eqb x "auto") eqn:Hx.
        + rewrite (infer_direction this0 g H0). simpl. congruence.
        + intros [= <-]. reflexivity.
      - rewrite String.eqb_refl, (infer_direction this0 g H0). simpl. congruence. }
    clearbody this0. subst this1.
    rewrite (_getFrameCount_eq _ g) in Hn.
    2:{ past_class_updates H0. }
    injection Hn as <-.
    unfold extent_along, _isHorizontal.
    destruct this0 as [[c0 g0] i0 d0 r0 a0 t0 fi0 f0]. simpl in *. subst.
    clear H1.
    destruct (default_reverse r);
      match goal with
      | |- context [String.eqb ?a ?b] => destruct (String.eqb a b)
      end; simpl; auto 20.
  - exfalso.
    assert (E : graphic (elements this1) = None).
    { revert H1. destruct (String.eqb _ _).
      - rewrite (infer_direction_null this0 H0). discriminate.
      - intros [= <-]. exact H0. }
    rewrite _getFrameCount_null in Hn; [discriminate|].
    past_class_updates E.
Qed.

Lemma constructor_succeeds c i d r g :
  querySelector_class (CSS_CLASS_GRAPHIC (CONSTANTS rev)) c = Some g ->
  exists this, constructor rev c i d r = Normal this.
Proof.
  intros Hg. unfold constructor. cbv zeta. rewrite Hg.
  set (this0 := mkStepAnimation _ _ _ _ _ _ _ _).
  assert (H0 : graphic (elements this0) = Some g) by reflexivity.
  destruct (String.eqb (_direction this0) _).
  - rewrite (infer_direction this0 g H0). cbn [bind].
    erewrite _getFrameCount_eq; [cbn [bind]; eauto|].
    past_class_updates H0.
  - cbn [bind].
    erewrite _getFrameCount_eq; [cbn [bind]; eauto|].
    past_class_updates H0.
Qed.

Lemma constructor_null c i d r :
  querySelector_class (CSS_CLASS_GRAPHIC (CONSTANTS rev)) c = None ->
  constructor rev c i d r = Throw TypeError.
Proof.
  intros Hg. unfold constructor. cbv zeta. rewrite Hg.
  set (this0 := mkStepAnimation _ _ _ _ _ _ _ _).
  assert (H0 : graphic (elements this0) = None) by reflexivity.
  destruct (String.eqb (_direction this0) _).
  - rewrite (infer_direction_null this0 H0). reflexivity.
  - cbn [bind]. rewrite _getFrameCount_null; [reflexivity|].
    past_class_updates H0.
Qed.

(** *** Stepping *)

Lemma _calculateNextTransform_spec this g :
  graphic (elements this) = Some g ->
  exists this',
    _calculateNextTransform rev this = Normal this'
    /\ _frame this' = settled_frame this
    /\ graphic (elements this')
       = Some (restyled g (written_transform rev this))
    /\ stepped this this'.
Proof.
  intros Hg. unfold _calculateNextTransform, written_transform, settled_frame.
  cbv zeta.
  destruct (_frameInRange this (_frame this)); cbn [negb].
  - unfold transform. rewrite Hg. cbn [deref bind].
    eexists; split; [reflexivity|]. unfold stepped. simpl.
    destruct (_isHorizontal rev this); auto 10.
  - unfold transform. cbn [set_frame elements]. rewrite Hg. cbn [deref bind].
    eexists; split; [reflexivity|]. unfold stepped, _isHorizontal. simpl.
    destruct (String.eqb _ _); auto 10.
Qed.

Lemma next_spec this g :
  graphic (elements this) = Some g ->
  exists this',
    next rev this = Normal this'
    /\ _frame this' = settled_frame (set_frame (add (_frame this) (Fin 1)) this)
    /\ graphic (elements this')
       = Some (restyled g (written_transform rev (set_frame (add (_frame this) (Fin 1)) this)))
    /\ stepped this this'.
Proof.
  intros Hg. unfold next. cbv zeta.
  exact (_calculateNextTransform_spec (set_frame _ this) g Hg).
Qed.

Lemma previous_spec this g :
  graphic (elements this) = Some g ->
  exists this',
    previous rev this = Normal this'
    /\ _frame this' = settled_frame (set_frame (sub (_frame this) (Fin 1)) this)
    /\ graphic (elements this')
       = Some (restyled g (written_transform rev (set_frame (sub (_frame this) (Fin 1)) this)))
    /\ stepped this this'.
Proof.
  intros Hg. unfold previous. cbv zeta.
  exact (_calculateNextTransform_spec (set_frame _ this) g Hg).
Qed.

Lemma settled_frame_in_range this :
  le (Fin 0) (count (_frameInfo this)) = true ->
  _frameInRange this (settled_frame this) = true.
Proof.
  intros Hc. unfold settled_frame.
  destruct (_frameInRange this (_frame this)) eqn:E; [exact E|].
  unfold _initialFrame, _frameInRange, ge.
  destruct (_reversed this).
  - rewrite Hc, (le_refl_of_nonneg _ Hc). reflexivity.
  - rewrite Hc. reflexivity.
Qed.

(** *** Starting and stopping *)

Lemma start_same_playhead o w this : same_playhead this (snd (start rev o w this)).
Proof.
  unfold start, same_playhead. destruct (_active this); simpl; auto.
Qed.

Lemma stop_same_playhead w this : same_playhead this (snd (stop rev w this)).
Proof.
  unfold stop, same_playhead. destruct (_active this); simpl; auto.
Qed.

Lemma stop_inactive w this : _active (snd (stop rev w this)) = false.
Proof. unfold stop. destruct (_active this) eqn:E; simpl; auto. Qed.

Lemma start_active o w this : _active (snd (start rev o w this)) = true.
Proof. unfold start. destruct (_active this) eqn:E; simpl; auto. Qed.

Lemma set_interval_same_playhead v w this :
  same_playhead this (snd (set_interval rev v w this)).
Proof.
  unfold set_interval.
  pose proof (stop_same_playhead w this) as H1.
  destruct (stop rev w this) as [w1 this1]. simpl in H1.
  pose proof (start_same_playhead None w1 (set_interval_field v this1)) as H2.
  unfold same_playhead in *. simpl in H2.
  intuition congruence.
Qed.

(** *** The wrap invariant *)

Lemma in_range_same_playhead this this' :
  same_playhead this this' -> in_range this -> in_range this'.
Proof.
  unfold same_playhead, in_range, _frameInRange.
  intros (-> & -> & _ & _ & ->). auto.
Qed.

Lemma in_range_next this :
  in_range this -> exists this', next rev this = Normal this'
                                 /\ _frameInfo this' = _frameInfo this
                                 /\ in_range this'.
Proof.
  intros (Hg & Hc & _).
  destruct (graphic (elements this)) as [g|] eqn:E; [|congruence].
  destruct (next_spec this g E) as (this' & -> & Hf & Hg' & Hs).
  exists this'. destruct Hs as (Hfi & _). repeat split; auto.
  - rewrite Hg'. discriminate.
  - rewrite Hfi. exact Hc.
  - rewrite Hf. unfold _frameInRange. rewrite Hfi.
    apply (settled_frame_in_range (set_frame _ this)). exact Hc.
Qed.

Lemma in_range_previous this :
  in_range this -> exists this', previous rev this = Normal this'
                                 /\ _frameInfo this' = _frameInfo this
                                 /\ in_range this'.
Proof.
  intros (Hg & Hc & _).
  destruct (graphic (elements this)) as [g|] eqn:E; [|congruence].
  destruct (previous_spec this g E) as (this' & -> & Hf & Hg' & Hs).
  exists this'. destruct Hs as (Hfi & _). repeat split; auto.
  - rewrite Hg'. discriminate.
  - rewrite Hfi. exact Hc.
  - rewrite Hf. unfold _frameInRange. rewrite Hfi.
    apply (settled_frame_in_range (set_frame _ this)). exact Hc.
Qed.

Lemma in_range_run_call c w this :
  in_range this ->
  exists w' this', run_call rev c (w, this) = Normal (w', this')
                   /\ _frameInfo this' = _frameInfo this
                   /\ in_range this'.
Proof.
  intros H. destruct c as [o| | | |v|h]; cbn [run_call].
  - pose proof (start_same_playhead o w this) as Hs.
    destruct (start rev o w this) as [w' this']. exists w', this'.
    split; [reflexivity|]. split; [apply Hs|]. eapply in_range_same_playhead; eauto.
  - pose proof (stop_same_playhead w this) as Hs.
    destruct (stop rev w this) as [w' this']. exists w', this'.
    split; [reflexivity|]. split; [apply Hs|]. eapply in_range_same_playhead; eauto.
  - destruct (in_range_previous this H) as (this' & -> & Hfi & H').
    exists w, this'. auto.
  - destruct (in_range_next this H) as (this' & -> & Hfi & H').
    exists w, this'. auto.
  - pose proof (set_interval_same_playhead v w this) as Hs.
    destruct (set_interval rev v w this) as [w' this']. exists w', this'.
    split; [reflexivity|]. split; [apply Hs|]. eapply in_range_same_playhead; eauto.
  - destruct (timer_live h w).
    + unfold _nextOrPrevious. destruct (_reversed this).
      * destruct (in_range_previous this H) as (this' & -> & Hfi & H').
        exists w, this'. auto.
      * destruct (in_range_next this H) as (this' & -> & Hfi & H').
        exists w, this'. auto.
    + exists w, this. auto.
Qed.

Lemma in_range_run cs : forall w this,
  in_range this ->
  exists w' this', run rev cs (w, this) = Normal (w', this')
                   /\ _frameInfo this' = _frameInfo this
                   /\ in_range this'.
Proof.
  induction cs as [|c cs IH]; intros w this H; cbn [run].
  - exists w, this. auto.
  - destruct (in_range_run_call c w this H) as (w1 & this1 & -> & Hfi & H1).
    cbn [bind].
    destruct (IH w1 this1 H1) as (w2 & this2 & -> & Hfi2 & H2).
    exists w2, this2. split; [reflexivity|]. split; [congruence|exact H2].
Qed.

Lemma constructor_in_range c i d r this :
  constructor rev c i d r = Normal this ->
  le (Fin 0) (count (_frameInfo this)) = true ->
  in_range this.
Proof.
  intros H Hc.
  destruct (constructor_Normal c i d r this H)
    as (g & _ & Hg & _ & _ & _ & _ & _ & _ & _ & _ & Hf).
  repeat split; auto.
  - rewrite Hg. discriminate.
  - rewrite Hf. unfold _initialFrame, _frameInRange, ge.
    destruct (_reversed this).
    + rewrite Hc, (le_refl_of_nonneg _ Hc). reflexivity.
    + rewrite Hc. reflexivity.
Qed.

(** *** Runs of steps between the bounds *)

Lemma next_frame this g f cq :
  graphic (elements this) = Some g ->
  _frame this = Fin f ->
  count (_frameInfo this) = Fin cq ->
  exists this' g',
    next rev this = Normal this'
    /\ graphic (elements this') = Some g'
    /\ stepped this this'
    /\ _frame this' = if Qle_bool 0 (f + 1) && Qle_bool (f + 1) cq
                      then Fin (f + 1) else _initialFrame this.
Proof.
  intros Hg Hf Hc.
  destruct (next_spec this g Hg) as (this' & Hn & Hf' & Hg' & Hs).
  exists this'. eexists. repeat split; try eassumption; try apply Hs.
  rewrite Hf'. unfold settled_frame, _frameInRange, ge. cbn [set_frame _frame _frameInfo].
  rewrite Hf, Hc. reflexivity.
Qed.

Lemma previous_frame this g f cq :
  graphic (elements this) = Some g ->
  _frame this = Fin f ->
  count (_frameInfo this) = Fin cq ->
  exists this' g',
    previous rev this = Normal this'
    /\ graphic (elements this') = Some g'
    /\ stepped this this'
    /\ _frame this' = if Qle_bool 0 (f - 1) && Qle_bool (f - 1) cq
                      then Fin (f - 1) else _initialFrame this.
Proof.
  intros Hg Hf Hc.
  destruct (previous_spec this g Hg) as (this' & Hn & Hf' & Hg' & Hs).
  exists this'. eexists. repeat split; try eassumption; try apply Hs.
  rewrite Hf'. unfold settled_frame, _frameInRange, ge. cbn [set_frame _frame _frameInfo].
  rewrite Hf, Hc. reflexivity.
Qed.

Lemma inject_succ (j : nat) :
  inject_Z (Z.of_nat (S j)) == inject_Z (Z.of_nat j) + 1.
Proof. rewrite Nat2Z.inj_succ, <- Z.add_1_r, inject_Z_plus. reflexivity. Qed.

Lemma inject_nat_nonneg (j : nat) : 0 <= inject_Z (Z.of_nat j).
Proof.
  change 0 with (inject_Z 0). rewrite <- Zle_Qle. apply Nat2Z.is_nonneg.
Qed.

(** [j] forward steps that stay below the count add [j] to the frame. *)
Lemma climb cq (j : nat) : forall this g f,
  graphic (elements this) = Some g ->
  _frame this = Fin f ->
  count (_frameInfo this) = Fin cq ->
  0 <= f -> f + inject_Z (Z.of_nat j) <= cq ->
  exists this' g' f',
    repeat_step (next rev) j this = Normal this'
    /\ graphic (elements this') = Some g'
    /\ _frameInfo this' = _frameInfo this
    /\ _reversed this' = _reversed this
    /\ _frame this' = Fin f' /\ f' == f + inject_Z (Z.of_nat j).
Proof.
  induction j as [|j IH]; intros this g f Hg Hf Hc H0 Hj; cbn [repeat_step].
  - exists this, g, f. repeat split; auto.
    change (inject_Z (Z.of_nat 0)) with 0. lra.
  - pose proof (inject_succ j) as Es. pose proof (inject_nat_nonneg j) as Ej.
    destruct (next_frame this g f cq Hg Hf Hc) as (t1 & g1 & -> & Hg1 & Hs & Hf1).
    cbn [bind].
    assert (E1 : Qle_bool 0 (f + 1) = true) by (apply Qle_bool_iff; lra).
    assert (E2 : Qle_bool (f + 1) cq = true) by (apply Qle_bool_iff; lra).
    rewrite E1, E2 in Hf1. cbn [andb] in Hf1.
    destruct Hs as (Hfi & Hr & _).
    destruct (IH t1 g1 (f + 1)) as (t2 & g2 & f2 & -> & Hg2 & Hfi2 & Hr2 & Hf2 & E);
      auto; try congruence; try lra.
    exists t2, g2, f2. repeat split; auto; try congruence. lra.
Qed.

(** [j] backward steps that stay above zero take [j] from the frame. *)
Lemma descend cq (j : nat) : forall this g f,
  graphic (elements this) = Some g ->
  _frame this = Fin f ->
  count (_frameInfo this) = Fin cq ->
  f <= cq -> 0 <= f - inject_Z (Z.of_nat j) ->
  exists this' g' f',
    repeat_step (previous rev) j this = Normal this'
    /\ graphic (elements this') = Some g'
    /\ _frameInfo this' = _frameInfo this
    /\ _reversed this' = _reversed this
    /\ _frame this' = Fin f' /\ f' == f - inject_Z (Z.of_nat j).
Proof.
  induction j as [|j IH]; intros this g f Hg Hf Hc H0 Hj; cbn [repeat_step].
  - exists this, g, f. repeat split; auto.
    change (inject_Z (Z.of_nat 0)) with 0. lra.
  - pose proof (inject_succ j) as Es. pose proof (inject_nat_nonneg j) as Ej.
    destruct (previous_frame this g f cq Hg Hf Hc) as (t1 & g1 & -> & Hg1 & Hs & Hf1).
    cbn [bind].
    assert (E1 : Qle_bool 0 (f - 1) = true) by (apply Qle_bool_iff; lra).
    assert (E2 : Qle_bool (f - 1) cq = true) by (apply Qle_bool_iff; lra).
    rewrite E1, E2 in Hf1. cbn [andb] in Hf1.
    destruct Hs as (Hfi & Hr & _).
    destruct (IH t1 g1 (f - 1)) as (t2 & g2 & f2 & -> & Hg2 & Hfi2 & Hr2 & Hf2 & E);
      auto; try congruence; try lra.
    exists t2, g2, f2. repeat split; auto; try congruence. lra.
Qed.

Lemma repeat_step_snoc step (j : nat) : forall this,
  repeat_step step (S j) this = bind (repeat_step step j this) step.
Proof.
  induction j as [|j IH]; intros this.
  - cbn [repeat_step bind]. destruct (step this); reflexivity.
  - change (repeat_step step (S (S j)) this)
      with (bind (step this) (repeat_step step (S j))).
    cbn [repeat_step]. destruct (step this) as [t|e]; cbn [bind]; [|reflexivity].
    apply IH.
Qed.

(** *** The frame count as a ratio *)

Lemma count_ratio (eg ec : N) :
  ec <> 0%N ->
  sub (div (of_N eg) (of_N ec)) (Fin 1)
  = Fin (inject_Z (Z.of_N eg) / inject_Z (Z.of_N ec) - 1).
Proof.
  intros Hec. unfold sub, div, of_N, neg, add.
  destruct (Qeq_bool (inject_Z (Z.of_N ec)) 0) eqn:E; [|reflexivity].
  exfalso. apply Qeq_bool_iff in E. unfold Qeq in E. simpl in E. lia.
Qed.



Lemma ratio_is_integer (eg ec : N) :
  ec <> 0%N ->
  (is_integer (Fin (inject_Z (Z.of_N eg) / inject_Z (Z.of_N ec) - 1)) = true
   <-> (ec | eg)%N).
Proof.
  intros Hec. rewrite <- (N.Lcm0.mod_divide eg ec).
  destruct ec as [|p]; [congruence|].
  unfold is_integer, Qminus, Qplus, Qdiv, Qmult, Qinv, Qopp, inject_Z. simpl.
  rewrite ?Pos.mul_1_r, ?Z.mul_1_r, Z.eqb_eq.
  replace (Z.of_N eg + Z.neg p)%Z with (Z.of_N eg + (-1) * Z.pos p)%Z by lia.
  rewrite Z.mod_add by lia.
  change (Z.pos p) with (Z.of_N (N.pos p)). rewrite <- N2Z.inj_mod. lia.
Qed.

End Facts.

(** * Properties of the specification *)

(** ** The offset of a step *)

(** After [next()] and after [previous()] alike, the sheet carries a
    translation along X when the instance is horizontal and along Y otherwise,
    whose offset is the new frame times the frame height [_frameInfo.height],
    whatever the axis. *)
Lemma step_translates_by_frame_height (rev : revision) (this : StepAnimation)
  (g : HTMLElement) (forward : bool) :
  graphic (elements this) = Some g ->
  exists this' g',
    (if forward then next rev this else previous rev this) = Normal this'
    /\ graphic (elements this') = Some g'
    /\ style_transform g'
       = Some (TranslateMinus (if _isHorizontal rev this' then X else Y)
                 (mul (_frame this') (height (_frameInfo this')))).
Proof.
  intros Hg.
  assert (H : exists this', (if forward then next rev this else previous rev this)
                            = Normal this'
              /\ exists x, _frame this' = settled_frame (set_frame x this)
              /\ graphic (elements this')
                 = Some (restyled g (written_transform rev (set_frame x this)))
              /\ stepped this this').
  { destruct forward.
    - destruct (next_spec rev this g Hg) as (t & H1 & H2 & H3 & H4); eauto 10.
    - destruct (previous_spec rev this g Hg) as (t & H1 & H2 & H3 & H4); eauto 10. }
  destruct H as (this' & Hrun & x & Hf & Hg' & Hfi & _ & Hd & _).
  exists this'. eexists. split; [exact Hrun|]. split; [exact Hg'|].
  unfold restyled, written_transform, _isHorizontal. cbn [style_transform].
  rewrite Hf, Hfi, Hd. reflexivity.
Qed.

(** C1, the code at the failing input.  In a 100 x 50 container holding a
    500 x 50 sheet, with direction 'horizontal', one [next()] moves to frame 1
    and translates the sheet along X by 50, which is the frame times the frame
    height; the frame times the frame width, which the claim asks for along
    the horizontal axis, is 100. *)
Theorem horizontal_step_offset_uses_height (rev : revision) :
  exists this this' g',
    constructor rev (markup rev 100 50 500 50) None (Some "horizontal") None
    = Normal this
    /\ next rev this = Normal this'
    /\ graphic (elements this') = Some g'
    /\ _isHorizontal rev this' = true
    /\ _frame this' = Fin 1
    /\ width (_frameInfo this') = Fin 100
    /\ height (_frameInfo this') = Fin 50
    /\ style_transform g' = Some (TranslateMinus X (Fin 50))
    /\ ~ same_value (Fin 50) (mul (_frame this') (width (_frameInfo this'))).
Proof.
  destruct rev; do 3 eexists; repeat split;
    try (vm_compute; reflexivity); vm_compute; discriminate.
Qed.

(** ** The wrap invariant *)

(** C2.  For an instance the constructor returned with a frame count that is
    not negative, every finite sequence of [start], [stop], [previous] and
    [next] calls (and of assignments to [interval] and timer ticks besides)
    runs to completion, leaves the frame count as it was and leaves the current
    frame in the closed interval from 0 to the frame count.  Non-zero extents
    are not needed beyond what the sign of the count already says. *)
Theorem frame_stays_in_range (rev : revision) (c : HTMLElement)
  (i : option number) (d : option string) (r : option bool)
  (this : StepAnimation) (w : Window) (cs : list call) :
  constructor rev c i d r = Normal this ->
  le (Fin 0) (count (_frameInfo this)) = true ->
  exists w' this',
    run rev cs (w, this) = Normal (w', this')
    /\ count (_frameInfo this') = count (_frameInfo this)
    /\ le (Fin 0) (_frame this') = true
    /\ le (_frame this') (count (_frameInfo this')) = true.
Proof.
  intros H Hc.
  destruct (in_range_run rev cs w this (constructor_in_range rev c i d r this H Hc))
    as (w' & this' & Hrun & Hfi & _ & _ & Hr).
  exists w', this'. split; [exact Hrun|]. split; [congruence|].
  unfold _frameInRange, ge in Hr. apply andb_true_iff in Hr. exact Hr.
Qed.

Lemma frame_stays_in_range_witness :
  exists w' this',
    run StepAnimation_0_0_3
      [Start None; Tick 1; Next; Next; Next; Next; Next; Stop; Previous; Start (Some (Fin 2))]
      (fresh_window, five_frames StepAnimation_0_0_3) = Normal (w', this')
    /\ count (_frameInfo this') = count (_frameInfo (five_frames StepAnimation_0_0_3))
    /\ le (Fin 0) (_frame this') = true
    /\ le (_frame this') (count (_frameInfo this')) = true.
Proof.
  apply (frame_stays_in_range StepAnimation_0_0_3
           (markup StepAnimation_0_0_3 100 100 500 100) None None None).
  - vm_compute. reflexivity.
  - vm_compute. reflexivity.
Defined.

(** ** Construction without a sheet *)

(** C3, the claim refuted.  Constructing on a container without a sprite-sheet
    child does not throw an error named ConfigurationError. *)
Lemma missing_sheet_not_ConfigurationError :
  ~ exists e : Error,
      constructor StepAnimation_0_0_3 (box 100 100) None None None = Throw e
      /\ name e = "ConfigurationError".
Proof.
  intros (e & H & Hn). vm_compute in H. injection H as <-. discriminate Hn.
Qed.

(** C3, amended.  When the container has no descendant carrying the sheet's
    class, the constructor does not return: it throws a TypeError, raised by
    the first read of a property of the missing sheet, and nothing catches it.
    This holds for every choice of the other arguments, in 0.0.3 and 0.0.2. *)
Theorem missing_sheet_throws_TypeError (rev : revision) (c : HTMLElement)
  (i : option number) (d : option string) (r : option bool) :
  querySelector_class (CSS_CLASS_GRAPHIC (CONSTANTS rev)) c = None ->
  constructor rev c i d r = Throw TypeError.
Proof. apply constructor_null. Qed.

Lemma missing_sheet_throws_TypeError_witness :
  constructor SpriteSequence_0_0_2 (box 100 100) (Some (Fin 40)) (Some "vertical") None
  = Throw TypeError.
Proof.
  apply (missing_sheet_throws_TypeError SpriteSequence_0_0_2 (box 100 100)).
  reflexivity.
Defined.

(** ** Direction inference *)

(** With direction 'auto' (or omitted), 0.0.3 and 0.0.2 resolve a sheet wider
    than tall to 'horizontal', a sheet taller than wide to 'vertical' and a
    square sheet to the default, 'vertical'. *)
Lemma auto_direction_resolved (rev : revision) (c : HTMLElement)
  (i : option number) (r : option bool) (this : StepAnimation) (g : HTMLElement) :
  constructor rev c i (Some (DIRECTION_AUTO (CONSTANTS rev))) r = Normal this ->
  graphic (elements this) = Some g ->
  ((offsetHeight g < offsetWidth g)%N ->
   _direction this = DIRECTION_HORIZONTAL (CONSTANTS rev))
  /\ ((offsetWidth g < offsetHeight g)%N ->
      _direction this = DIRECTION_VERTICAL (CONSTANTS rev))
  /\ (offsetWidth g = offsetHeight g ->
      _direction this = DIRECTION_DEFAULT (CONSTANTS rev)
      /\ DIRECTION_DEFAULT (CONSTANTS rev) = DIRECTION_VERTICAL (CONSTANTS rev)).
Proof.
  intros H Hg.
  destruct (constructor_Normal rev c i _ r this H)
    as (g0 & _ & Hg0 & _ & _ & Hd & _).
  assert (g0 = g) by congruence. subst g0.
  rewrite Hd, DIRECTION_AUTO_eq. unfold resolved_direction, inferred_direction.
  cbn [String.eqb Ascii.eqb Bool.eqb].
  repeat split.
  - intros Hlt. apply N.ltb_lt in Hlt. rewrite Hlt. destruct rev; reflexivity.
  - intros Hlt. destruct (offsetHeight g <? offsetWidth g)%N eqn:E.
    + apply N.ltb_lt in E. lia.
    + destruct rev; reflexivity.
  - destruct (offsetHeight g <? offsetWidth g)%N eqn:E.
    + apply N.ltb_lt in E. lia.
    + destruct rev; reflexivity.
  - destruct rev; reflexivity.
Qed.

(** In 0.0.1 the two outcomes are exchanged: with direction 'auto' a sheet
    wider than tall resolves to 'vertical', any other to 'horizontal'. *)
Lemma legacy_direction_exchanged (c : HTMLElement) (i : option number)
  (r : option bool) (this : StepAnimation) (g : HTMLElement) :
  Legacy.constructor c i (Some Legacy.DIRECTION_AUTO) r = Normal this ->
  graphic (elements this) = Some g ->
  _direction this
  = if (offsetHeight g <? offsetWidth g)%N then Legacy.DIRECTION_VERTICAL
    else Legacy.DIRECTION_HORIZONTAL.
Proof.
  unfold Legacy.constructor. cbv zeta. cbn [_direction String.eqb Ascii.eqb Bool.eqb Legacy.DIRECTION_AUTO].
  unfold Legacy._calculateDirection. cbn [elements graphic].
  destruct (querySelector_class _ c) as [g0|]; cbn [deref bind]; [|discriminate].
  destruct (offsetHeight g0 <? offsetWidth g0)%N eqn:E; cbn [bind deref set_direction set_frame elements graphic];
    intros [= <-]; cbn; intros [= <-]; rewrite E; reflexivity.
Qed.

(** C4, the code at the failing input.  Version 0.0.1, constructed with
    direction 'auto' on a container whose sheet is 500 wide and 100 tall,
    resolves the direction to 'vertical', where the claim says Horizontal. *)
Theorem legacy_wide_sheet_resolves_vertical :
  exists this g,
    Legacy.constructor (spritesequencer_markup 100 100 500 100) None None None
    = Normal this
    /\ graphic (elements this) = Some g
    /\ (offsetHeight g < offsetWidth g)%N
    /\ _direction this = "vertical".
Proof.
  vm_compute. do 2 eexists. repeat split.
Qed.

(** ** The cycle of frames *)

(** C5.  Take an instance that has its sheet and whose frame count is the
    natural number [n].  If it is not reversed and stands at frame 0, then
    [n + 1] calls of [next()] all return and bring the frame back to 0.  If it
    is reversed and stands at the reversed initial frame, the frame count, then
    [n + 1] calls of [previous()] all return and bring the frame back to the
    frame count. *)
Theorem stepping_is_cyclic (rev : revision) (this : StepAnimation) (n : N) :
  graphic (elements this) <> None ->
  same_value (count (_frameInfo this)) (of_N n) ->
  (_reversed this = false ->
   same_value (_frame this) (Fin 0) ->
   exists this',
     repeat_step (next rev) (S (N.to_nat n)) this = Normal this'
     /\ same_value (_frame this') (Fin 0))
  /\ (_reversed this = true ->
      same_value (_frame this) (count (_frameInfo this)) ->
      exists this',
        repeat_step (previous rev) (S (N.to_nat n)) this = Normal this'
        /\ same_value (_frame this') (count (_frameInfo this))).
Proof.
  intros Hg Hn.
  destruct (graphic (elements this)) as [g|] eqn:Eg; [clear Hg|congruence].
  destruct (count (_frameInfo this)) as [cq| | |] eqn:Ec; try contradiction.
  unfold of_N in Hn. cbn [same_value] in Hn.
  assert (En : inject_Z (Z.of_nat (N.to_nat n)) == cq)
    by (rewrite N_nat_Z; symmetry; exact Hn).
  pose proof (inject_nat_nonneg (N.to_nat n)) as Hpos.
  split; intros Hr Hf;
    destruct (_frame this) as [f| | |] eqn:Ef; try contradiction;
    cbn [same_value] in Hf; rewrite repeat_step_snoc.
  - destruct (climb rev cq (N.to_nat n) this g f Eg Ef Ec)
      as (t1 & g1 & f1 & -> & Hg1 & Hfi1 & Hr1 & Hf1 & E1); try lra.
    cbn [bind].
    destruct (next_frame rev t1 g1 f1 cq Hg1 Hf1) as (t2 & g2 & -> & _ & _ & Hf2);
      [congruence|].
    exists t2. split; [reflexivity|].
    destruct (Qle_bool (f1 + 1) cq) eqn:E; [apply Qle_bool_iff in E; lra|].
    rewrite andb_false_r in Hf2. rewrite Hf2.
    unfold _initialFrame. rewrite Hr1, Hr. cbn [same_value]. reflexivity.
  - destruct (descend rev cq (N.to_nat n) this g f Eg Ef Ec)
      as (t1 & g1 & f1 & -> & Hg1 & Hfi1 & Hr1 & Hf1 & E1); try lra.
    cbn [bind].
    destruct (previous_frame rev t1 g1 f1 cq Hg1 Hf1) as (t2 & g2 & -> & _ & _ & Hf2);
      [congruence|].
    exists t2. split; [reflexivity|].
    destruct (Qle_bool 0 (f1 - 1)) eqn:E; [apply Qle_bool_iff in E; lra|].
    cbn [andb] in Hf2. rewrite Hf2.
    unfold _initialFrame. rewrite Hr1, Hr, Hfi1, Ec. cbn [same_value]. reflexivity.
Qed.

Lemma stepping_is_cyclic_witness :
  (exists this',
     repeat_step (next StepAnimation_0_0_3) 5 (five_frames StepAnimation_0_0_3)
     = Normal this'
     /\ same_value (_frame this') (Fin 0))
  /\ (exists this',
        repeat_step (previous SpriteSequence_0_0_2) 5
          (five_frames_reversed SpriteSequence_0_0_2) = Normal this'
        /\ same_value (_frame this')
             (count (_frameInfo (five_frames_reversed SpriteSequence_0_0_2)))).
Proof.
  split.
  - apply (stepping_is_cyclic StepAnimation_0_0_3
             (five_frames StepAnimation_0_0_3) 4);
      vm_compute; (reflexivity || discriminate).
  - apply (stepping_is_cyclic SpriteSequence_0_0_2
             (five_frames_reversed SpriteSequence_0_0_2) 4);
      vm_compute; (reflexivity || discriminate).
Defined.

(** ** The frame count *)




(** C8, the claim refuted.  With a 250 wide sheet in a 100 wide container,
    250 is not a multiple of 100 and the frame count of the horizontal
    sequence is 3/2: nothing truncates the ratio, and the count is not an
    integer. *)
Lemma fractional_count :
  exists this g,
    constructor StepAnimation_0_0_3 (stepanimation_markup 100 100 250 100)
      None None None = Normal this
    /\ graphic (elements this) = Some g
    /\ ~ (extent_along StepAnimation_0_0_3 this (container (elements this))
          | extent_along StepAnimation_0_0_3 this g)%N
    /\ same_value (count (_frameInfo this)) (Fin (3 # 2))
    /\ is_integer (count (_frameInfo this)) = false.
Proof.
  do 2 eexists. split; [vm_compute; reflexivity|]. split; [reflexivity|].
  split; [|split; vm_compute; reflexivity].
  intros (k & Hk). cbn in Hk. lia.
Qed.

(** C8, amended.  When the container's extent along the axis of the sequence
    is not zero and the sheet's extent is not an exact multiple of it, the
    ratio is not truncated: the frame count is a finite number and it is not an
    integer. *)
Theorem count_is_not_truncated (rev : revision) (c : HTMLElement)
  (i : option number) (d : option string) (r : option bool)
  (this : StepAnimation) (g : HTMLElement) :
  constructor rev c i d r = Normal this ->
  graphic (elements this) = Some g ->
  extent_along rev this c <> 0%N ->
  ~ (extent_along rev this c | extent_along rev this g)%N ->
  (exists q : Q, count (_frameInfo this) = Fin q)
  /\ is_integer (count (_frameInfo this)) = false.
Proof.
  intros H Hg Hec Hdiv.
  destruct (constructor_Normal rev c i d r this H)
    as (g0 & _ & Hg0 & _ & _ & _ & _ & _ & _ & _ & Hn & _).
  assert (g0 = g) by congruence. subst g0.
  rewrite Hn, (count_ratio _ _ Hec). split; [eexists; reflexivity|].
  destruct (is_integer _) eqn:E; [|reflexivity].
  exfalso. apply Hdiv. apply (ratio_is_integer _ _ Hec). exact E.
Qed.

Lemma count_is_not_truncated_witness :
  let this :=
    returned (constructor SpriteSequence_0_0_2
                (spritesequencer_markup 100 100 250 100) None None None) in
  (exists q : Q, count (_frameInfo this) = Fin q)
  /\ is_integer (count (_frameInfo this)) = false.
Proof.
  apply (count_is_not_truncated SpriteSequence_0_0_2
           (spritesequencer_markup 100 100 250 100) None None None
           (returned (constructor SpriteSequence_0_0_2
                        (spritesequencer_markup 100 100 250 100) None None None))
           (mkElement 250 100 ["spritesequencer__graphic"] None [])).
  - vm_compute. reflexivity.
  - vm_compute. reflexivity.
  - vm_compute. discriminate.
  - intros (k & Hk). cbn in Hk. lia.
Defined.

(** ** The initial frame *)

(** C7.  The instance a constructor call returns stands at its frame count
    when the reverse flag was passed as true, and at 0 when it was passed as
    false or omitted. *)
Theorem initial_frame_follows_reverse (rev : revision) (c : HTMLElement)
  (i : option number) (d : option string) (r : option bool)
  (this : StepAnimation) :
  constructor rev c i d r = Normal this ->
  _reversed this = default_reverse r
  /\ _frame this = if default_reverse r then count (_frameInfo this) else Fin 0.
Proof.
  intros H.
  destruct (constructor_Normal rev c i d r this H)
    as (g & _ & _ & _ & _ & _ & Hr & _ & _ & _ & _ & Hf).
  split; [exact Hr|]. rewrite Hf. unfold _initialFrame. rewrite Hr. reflexivity.
Qed.

Lemma initial_frame_follows_reverse_witness :
  _reversed (five_frames_reversed StepAnimation_0_0_3) = true
  /\ _frame (five_frames_reversed StepAnimation_0_0_3)
     = count (_frameInfo (five_frames_reversed StepAnimation_0_0_3)).
Proof.
  apply (initial_frame_follows_reverse StepAnimation_0_0_3
           (markup StepAnimation_0_0_3 100 100 500 100) None None (Some true)
           (five_frames_reversed StepAnimation_0_0_3)).
  vm_compute. reflexivity.
Defined.

(** ** Starting, stopping and the interval *)

(** C9.  [start(f)] returns the very window and instance that [start()]
    returns, for every frame value [f], and the current frame after the call
    is the one before it: the argument never seeds the frame. *)
Theorem start_ignores_opt_frame (rev : revision) (f : number) (w : Window)
  (this : StepAnimation) :
  start rev (Some f) w this = start rev None w this
  /\ _frame (snd (start rev (Some f) w this)) = _frame this.
Proof.
  split; [reflexivity|]. apply (start_same_playhead rev (Some f) w this).
Qed.

(** C10.  After an assignment to [interval] the instance is active, whether it
    was active or idle before, and its timer handle is live in the window: the
    setter stops (nothing to do on an idle instance) and then starts. *)
Theorem set_interval_activates (rev : revision) (interval : number) (w : Window)
  (this : StepAnimation) :
  _active (snd (set_interval rev interval w this)) = true
  /\ _interval (snd (set_interval rev interval w this)) = interval
  /\ exists h, _timer (snd (set_interval rev interval w this)) = Some h
               /\ timer_live h (fst (set_interval rev interval w this)) = true.
Proof.
  unfold set_interval.
  pose proof (stop_inactive rev w this) as Hs.
  destruct (stop rev w this) as [w1 this1]. cbn [snd] in Hs.
  unfold start. cbn [set_interval_field _active]. rewrite Hs.
  cbn. split; [reflexivity|]. split; [reflexivity|].
  exists (next_handle w1). rewrite Nat.eqb_refl. split; reflexivity.
Qed.

(** * Further properties of the code *)

(** ** [randomInteger] *)

Lemma randomInteger_value (u : Q) (lo hi : Z) :
  randomInteger (Fin u) (Fin (inject_Z lo)) (Fin (inject_Z hi))
  = Fin (inject_Z (Qfloor (u * (inject_Z hi - inject_Z lo + 1))) + inject_Z lo).
Proof. reflexivity. Qed.

Lemma span_as_integer (lo hi : Z) :
  inject_Z hi - inject_Z lo + 1 == inject_Z (hi - lo + 1).
Proof.
  unfold Qeq, Qminus, Qplus, Qopp, inject_Z. simpl. lia.
Qed.

Lemma floor_of_scaled (u : Q) (n : Z) :
  0 <= u -> u < 1 -> (0 < n)%Z ->
  (0 <= Qfloor (u * inject_Z n) < n)%Z.
Proof.
  intros H0 H1 Hn.
  assert (Hq : 0 < inject_Z n) by (change 0 with (inject_Z 0); rewrite <- Zlt_Qlt; exact Hn).
  split.
  - change 0%Z with (Qfloor (inject_Z 0)). apply Qfloor_resp_le.
    change (inject_Z 0) with 0. apply Qmult_le_0_compat; lra.
  - rewrite Zlt_Qlt. apply Qle_lt_trans with (u * inject_Z n).
    + apply Qfloor_le.
    + setoid_replace (inject_Z n) with (1 * inject_Z n) at 2 by ring.
      apply Qmult_lt_compat_r; assumption.
Qed.

(** X1.  Given integers [lo <= hi] and a draw of [Math.random()] from 0 up to
    but excluding 1, [randomInteger(lo, hi)] is an integer from [lo] to [hi],
    both included. *)
Theorem randomInteger_in_range (u : Q) (lo hi : Z) :
  0 <= u -> u < 1 -> (lo <= hi)%Z ->
  exists k : Z,
    same_value (randomInteger (Fin u) (Fin (inject_Z lo)) (Fin (inject_Z hi)))
      (Fin (inject_Z k))
    /\ (lo <= k <= hi)%Z.
Proof.
  intros H0 H1 Hle. rewrite randomInteger_value.
  rewrite (Qfloor_comp _ _ (Qmult_comp _ _ (Qeq_refl u) _ _ (span_as_integer lo hi))).
  destruct (floor_of_scaled u (hi - lo + 1) H0 H1) as (Ha & Hb); [lia|].
  exists (Qfloor (u * inject_Z (hi - lo + 1)) + lo)%Z. split; [|lia].
  cbn [same_value]. rewrite (inject_Z_plus (Qfloor _) lo). reflexivity.
Qed.

Lemma randomInteger_in_range_witness :
  exists k : Z,
    same_value (randomInteger (Fin (7 # 10)) (Fin (inject_Z 3)) (Fin (inject_Z 6)))
      (Fin (inject_Z k))
    /\ (3 <= k <= 6)%Z.
Proof.
  apply (randomInteger_in_range (7 # 10) 3 6); [vm_compute; discriminate|reflexivity|lia].
Defined.

(** ** The constructor in closed form *)

Lemma resolve_direction (rev : revision) (this0 : StepAnimation)
  (d : option string) (g : HTMLElement) :
  graphic (elements this0) = Some g ->
  _direction this0 = match d with Some x => x | None => DIRECTION_AUTO (CONSTANTS rev) end ->
  (if String.eqb (_direction this0) (DIRECTION_AUTO (CONSTANTS rev))
   then d0 <- match rev with
              | StepAnimation_0_0_3 =>
                  _getContentDirection rev (graphic (elements this0))
              | SpriteSequence_0_0_2 => _calculateDirection rev this0
              end ;; Normal (set_direction d0 this0)
   else Normal this0)
  = Normal (set_direction (resolved_direction d g) this0).
Proof.
  intros H0 Hd.
  rewrite (infer_direction rev this0 g H0), Hd, DIRECTION_AUTO_eq.
  unfold resolved_direction. destruct d as [x|].
  - destruct (String.eqb x "auto"); [reflexivity|].
    destruct this0; cbn in *; subst; reflexivity.
  - reflexivity.
Qed.

Lemma constructor_shape (rev : revision) (c g : HTMLElement)
  (i : option number) (d : option string) (r : option bool) :
  querySelector_class (CSS_CLASS_GRAPHIC (CONSTANTS rev)) c = Some g ->
  constructor rev c i d r = Normal (constructed rev c g i d r).
Proof.
  intros Hg. unfold constructor. cbv zeta. rewrite Hg.
  set (this0 := mkStepAnimation _ _ _ _ _ _ _ _).
  rewrite (resolve_direction rev this0 d g eq_refl eq_refl). subst this0.
  unfold constructed, constructed_classList, _getFrameCount, _isHorizontal,
    _initialFrame.
  destruct (String.eqb (resolved_direction d g) "horizontal") eqn:Ed;
    destruct rev, r as [[|]|];
    do 3 (cbn -[div sub of_N classList_add]; rewrite ?Ed); reflexivity.
Qed.

Lemma constructor_returns (rev : revision) (c : HTMLElement)
  (i : option number) (d : option string) (r : option bool) (this : StepAnimation) :
  constructor rev c i d r = Normal this ->
  exists g,
    querySelector_class (CSS_CLASS_GRAPHIC (CONSTANTS rev)) c = Some g
    /\ this = constructed rev c g i d r.
Proof.
  intros H.
  destruct (constructor_Normal rev c i d r this H) as (g & Hg & _).
  exists g. split; [exact Hg|].
  rewrite (constructor_shape rev c g i d r Hg) in H. congruence.
Qed.

Lemma constructed_isHorizontal (rev : revision) (c g : HTMLElement)
  (i : option number) (d : option string) (r : option bool) :
  _isHorizontal rev (constructed rev c g i d r)
  = String.eqb (resolved_direction d g) "horizontal".
Proof. destruct rev; reflexivity. Qed.

(** ** Construction *)

(** X3.  The constructor of 0.0.3 and 0.0.2 returns an instance exactly when
    some descendant of the container carries the sheet's class: no extent, not
    even a zero one, no interval and no direction string makes it throw. *)
Theorem construction_returns_iff_sheet (rev : revision) (c : HTMLElement)
  (i : option number) (d : option string) (r : option bool) :
  (exists this, constructor rev c i d r = Normal this)
  <-> querySelector_class (CSS_CLASS_GRAPHIC (CONSTANTS rev)) c <> None.
Proof.
  split.
  - intros (this & H).
    destruct (constructor_returns rev c i d r this H) as (g & Hg & _).
    rewrite Hg. discriminate.
  - intros H.
    destruct (querySelector_class _ c) as [g|] eqn:Hg; [|congruence].
    exact (constructor_succeeds rev c i d r g Hg).
Qed.

(** X4.  When the container measures zero along the axis of the sequence, the
    frame count is not a frame number: it is NaN if the sheet measures zero
    along that axis too, and positive infinity otherwise. *)
Theorem zero_container_extent_count (rev : revision) (c : HTMLElement)
  (i : option number) (d : option string) (r : option bool)
  (this : StepAnimation) (g : HTMLElement) :
  constructor rev c i d r = Normal this ->
  graphic (elements this) = Some g ->
  extent_along rev this c = 0%N ->
  count (_frameInfo this)
  = if (extent_along rev this g =? 0)%N then NaN else PosInfinity.
Proof.
  intros H Hg Hc.
  destruct (constructor_Normal rev c i d r this H)
    as (g0 & _ & Hg0 & _ & _ & _ & _ & _ & _ & _ & Hn & _).
  assert (g0 = g) by congruence. subst g0.
  rewrite Hn, Hc.
  destruct (extent_along rev this g) as [|p]; reflexivity.
Qed.

Lemma zero_container_extent_count_witness :
  count (_frameInfo (returned (constructor StepAnimation_0_0_3
                                 (stepanimation_markup 0 100 500 100)
                                 None None None)))
  = PosInfinity.
Proof.
  apply (zero_container_extent_count StepAnimation_0_0_3
           (stepanimation_markup 0 100 500 100) None None None
           (returned (constructor StepAnimation_0_0_3
                        (stepanimation_markup 0 100 500 100) None None None))
           (mkElement 500 100 ["stepanimation__graphic"] None []));
    reflexivity.
Defined.

(** ** The class list of the container *)

Lemma contains_classList_add (t a : string) (l : list string) :
  contains t (classList_add a l) = String.eqb t a || contains t l.
Proof.
  unfold classList_add.
  destruct (contains a l) eqn:Ea.
  - destruct (String.eqb_spec t a) as [->|_]; [rewrite Ea|]; reflexivity.
  - unfold contains. rewrite existsb_app. cbn [existsb].
    rewrite orb_false_r. apply orb_comm.
Qed.

Lemma contains_classList_remove (t a : string) (l : list string) :
  contains t (classList_remove a l) = negb (String.eqb a t) && contains t l.
Proof.
  unfold classList_remove, contains.
  induction l as [|x l IH]; cbn [filter existsb].
  - rewrite andb_false_r. reflexivity.
  - destruct (String.eqb_spec a x) as [->|Hax]; cbn [negb existsb].
    + rewrite IH. destruct (String.eqb_spec x t) as [->|Hxt]; cbn [negb andb].
      * reflexivity.
      * destruct (String.eqb_spec t x) as [->|_]; [congruence|reflexivity].
    + rewrite IH. destruct (String.eqb_spec t x) as [->|_]; cbn [orb].
      * destruct (String.eqb_spec a x); [congruence|reflexivity].
      * reflexivity.
Qed.

(** X5.  After construction the container carries the classes it had before,
    the class of the resolved orientation, the reversed class when the
    instance is reversed, and nothing else. *)
Theorem constructed_container_classes (rev : revision) (c : HTMLElement)
  (i : option number) (d : option string) (r : option bool)
  (this : StepAnimation) (t : string) :
  constructor rev c i d r = Normal this ->
  contains t (classList (container (elements this)))
  = contains t (classList c)
    || String.eqb t (orientation_class rev this)
    || (_reversed this && String.eqb t (CSS_CLASS_REVERSED (CONSTANTS rev))).
Proof.
  intros H.
  destruct (constructor_returns rev c i d r this H) as (g & _ & ->).
  unfold orientation_class. rewrite constructed_isHorizontal.
  cbn [constructed elements container classList _reversed].
  unfold constructed_classList. rewrite contains_classList_add.
  destruct (default_reverse r); cbn [andb].
  - rewrite contains_classList_add.
    destruct (String.eqb (resolved_direction d g) "horizontal");
      destruct (String.eqb t _), (String.eqb t _), (contains t (classList c));
      reflexivity.
  - rewrite orb_false_r.
    destruct (String.eqb (resolved_direction d g) "horizontal");
      apply orb_comm.
Qed.

Lemma constructed_container_classes_witness :
  contains "stepanimation--vertical"
    (classList (container (elements (five_frames StepAnimation_0_0_3))))
  = contains "stepanimation--vertical"
      (classList (markup StepAnimation_0_0_3 100 100 500 100))
    || String.eqb "stepanimation--vertical"
         (orientation_class StepAnimation_0_0_3 (five_frames StepAnimation_0_0_3))
    || (_reversed (five_frames StepAnimation_0_0_3)
        && String.eqb "stepanimation--vertical"
             (CSS_CLASS_REVERSED (CONSTANTS StepAnimation_0_0_3))).
Proof.
  apply (constructed_container_classes StepAnimation_0_0_3
           (markup StepAnimation_0_0_3 100 100 500 100) None None None).
  reflexivity.
Defined.

(** X6.  A direction string that is neither 'auto' nor 'horizontal' is kept as
    it is and treated as vertical: the instance is the one built for
    'vertical', except for the string stored in [_direction]. *)
Theorem unknown_direction_is_vertical (rev : revision) (c : HTMLElement)
  (i : option number) (d : string) (r : option bool) (this : StepAnimation) :
  String.eqb d "auto" = false ->
  String.eqb d "horizontal" = false ->
  constructor rev c i (Some d) r = Normal this ->
  exists vertical,
    constructor rev c i (Some "vertical") r = Normal vertical
    /\ this = set_direction d vertical
    /\ _isHorizontal rev this = false.
Proof.
  intros Ha Hh H.
  destruct (constructor_returns rev c i (Some d) r this H) as (g & Hg & ->).
  exists (constructed rev c g i (Some "vertical") r).
  split; [exact (constructor_shape rev c g i (Some "vertical") r Hg)|].
  rewrite constructed_isHorizontal.
  unfold constructed, resolved_direction. rewrite Ha. cbn [String.eqb Ascii.eqb Bool.eqb].
  rewrite Hh. split; reflexivity.
Qed.

Lemma unknown_direction_is_vertical_witness :
  exists vertical,
    constructor SpriteSequence_0_0_2 (spritesequencer_markup 100 100 500 100)
      None (Some "vertical") None = Normal vertical
    /\ returned (constructor SpriteSequence_0_0_2
                   (spritesequencer_markup 100 100 500 100) None (Some "diagonal") None)
       = set_direction "diagonal" vertical
    /\ _isHorizontal SpriteSequence_0_0_2
         (returned (constructor SpriteSequence_0_0_2
                      (spritesequencer_markup 100 100 500 100)
                      None (Some "diagonal") None)) = false.
Proof.
  apply (unknown_direction_is_vertical SpriteSequence_0_0_2
           (spritesequencer_markup 100 100 500 100) None "diagonal" None);
    reflexivity.
Defined.

(** ** Invariants of runs *)

Lemma step_throws_without_sheet (rev : revision) (this : StepAnimation) :
  graphic (elements this) = None ->
  _calculateNextTransform rev this = Throw TypeError.
Proof.
  intros Hg. unfold _calculateNextTransform, transform. cbv zeta.
  destruct (negb _); cbn [set_frame elements]; rewrite Hg; reflexivity.
Qed.

(** What a step that returned did, read backwards from its result. *)
Lemma step_returned (rev : revision) (forward : bool) (this this' : StepAnimation) :
  (if forward then next rev this else previous rev this) = Normal this' ->
  exists g x,
    graphic (elements this) = Some g
    /\ x = (if forward then add (_frame this) (Fin 1) else sub (_frame this) (Fin 1))
    /\ _frame this' = settled_frame (set_frame x this)
    /\ graphic (elements this')
       = Some (restyled g (written_transform rev (set_frame x this)))
    /\ stepped this this'.
Proof.
  intros H.
  destruct (graphic (elements this)) as [g|] eqn:Hg.
  - exists g. destruct forward.
    + destruct (next_spec rev this g Hg) as (t & Ht & Hf & Hg' & Hs).
      assert (t = this') by congruence. subst t. eauto 10.
    + destruct (previous_spec rev this g Hg) as (t & Ht & Hf & Hg' & Hs).
      assert (t = this') by congruence. subst t. eauto 10.
  - exfalso. destruct forward; unfold next, previous in H; cbv zeta in H;
      rewrite step_throws_without_sheet in H by exact Hg; discriminate.
Qed.

(** A call is a step forward, a step backward, a dead tick or a control. *)
Lemma run_call_cases (rev : revision) (c : call) (w w' : Window)
  (this this' : StepAnimation) :
  run_call rev c (w, this) = Normal (w', this') ->
  (w' = w /\ exists forward : bool,
      (if forward then next rev this else previous rev this) = Normal this')
  \/ (w' = w /\ this' = this)
  \/ (exists o, (w', this') = start rev o w this)
  \/ (w', this') = stop rev w this
  \/ (exists v, (w', this') = set_interval rev v w this).
Proof.
  destruct c as [o| | | |v|h]; cbn [run_call]; intros H.
  - right. right. left. exists o. congruence.
  - right. right. right. left. congruence.
  - left. apply bind_Normal in H as (t & Ht & Hr). injection Hr as <- <-.
    split; [reflexivity|]. exists false. exact Ht.
  - left. apply bind_Normal in H as (t & Ht & Hr). injection Hr as <- <-.
    split; [reflexivity|]. exists true. exact Ht.
  - right. right. right. right. exists v. congruence.
  - destruct (timer_live h w).
    + left. apply bind_Normal in H as (t & Ht & Hr). injection Hr as <- <-.
      split; [reflexivity|]. unfold _nextOrPrevious in Ht.
      exists (negb (_reversed this)). destruct (_reversed this); exact Ht.
    + right. left. injection H as <- <-. split; reflexivity.
Qed.

(** A property kept by every call that returns is kept by every run. *)
Lemma run_preserves (rev : revision) (P : Window -> StepAnimation -> Prop) :
  (forall c w this w' this',
      P w this -> run_call rev c (w, this) = Normal (w', this') -> P w' this') ->
  forall cs w this w' this',
    P w this -> run rev cs (w, this) = Normal (w', this') -> P w' this'.
Proof.
  intros Hstep. induction cs as [|c cs IH]; intros w this w' this' HP H;
    cbn [run] in H.
  - injection H as <- <-. exact HP.
  - apply bind_Normal in H as ([w1 t1] & H1 & H).
    exact (IH w1 t1 w' this' (Hstep c w this w1 t1 HP H1) H).
Qed.

Lemma run_never_throws_from (rev : revision) (cs : list call) :
  forall w this,
    graphic (elements this) <> None ->
    exists w' this', run rev cs (w, this) = Normal (w', this')
                     /\ graphic (elements this') <> None.
Proof.
  induction cs as [|c cs IH]; intros w this Hg; cbn [run].
  - eauto.
  - assert (H1 : exists w1 t1, run_call rev c (w, this) = Normal (w1, t1)
                               /\ graphic (elements t1) <> None).
    { destruct (graphic (elements this)) as [g|] eqn:Eg; [|congruence].
      assert (Hn : exists t, next rev this = Normal t /\ graphic (elements t) <> None).
      { destruct (next_spec rev this g Eg) as (t & -> & _ & Hg' & _).
        exists t. split; [reflexivity|]. rewrite Hg'. discriminate. }
      assert (Hp : exists t, previous rev this = Normal t /\ graphic (elements t) <> None).
      { destruct (previous_spec rev this g Eg) as (t & -> & _ & Hg' & _).
        exists t. split; [reflexivity|]. rewrite Hg'. discriminate. }
      destruct c as [o| | | |v|h]; cbn [run_call].
      - pose proof (start_same_playhead rev o w this) as (_ & _ & _ & _ & Hs).
        destruct (start rev o w this) as [w1 t1]. exists w1, t1.
        split; [reflexivity|]. cbn [snd] in Hs. congruence.
      - pose proof (stop_same_playhead rev w this) as (_ & _ & _ & _ & Hs).
        destruct (stop rev w this) as [w1 t1]. exists w1, t1.
        split; [reflexivity|]. cbn [snd] in Hs. congruence.
      - destruct Hp as (t & -> & Ht). exists w, t. auto.
      - destruct Hn as (t & -> & Ht). exists w, t. auto.
      - pose proof (set_interval_same_playhead rev v w this) as (_ & _ & _ & _ & Hs).
        destruct (set_interval rev v w this) as [w1 t1]. exists w1, t1.
        split; [reflexivity|]. cbn [snd] in Hs. congruence.
      - destruct (timer_live h w).
        + unfold _nextOrPrevious. destruct (_reversed this).
          * destruct Hp as (t & -> & Ht). exists w, t. auto.
          * destruct Hn as (t & -> & Ht). exists w, t. auto.
        + exists w, this. split; [reflexivity|]. congruence. }
    destruct H1 as (w1 & t1 & -> & Hg1). cbn [bind]. exact (IH w1 t1 Hg1).
Qed.

(** X7.  On an instance the constructor returned, every finite sequence of
    calls, interval assignments and timer ticks runs to completion: nothing
    after construction throws, whatever the frame count is. *)
Theorem run_never_throws (rev : revision) (c : HTMLElement)
  (i : option number) (d : option string) (r : option bool)
  (this : StepAnimation) (w : Window) (cs : list call) :
  constructor rev c i d r = Normal this ->
  exists w' this', run rev cs (w, this) = Normal (w', this').
Proof.
  intros H.
  destruct (constructor_Normal rev c i d r this H) as (g & _ & Hg & _).
  destruct (run_never_throws_from rev cs w this) as (w' & this' & Hrun & _).
  - rewrite Hg. discriminate.
  - eauto.
Qed.

Lemma run_never_throws_witness :
  exists w' this',
    run StepAnimation_0_0_3 [Next; Start None; Tick 1; SetInterval (Fin 40); Previous]
      (fresh_window,
       returned (constructor StepAnimation_0_0_3
                   (stepanimation_markup 100 100 50 50) None None (Some true)))
    = Normal (w', this').
Proof.
  apply (run_never_throws StepAnimation_0_0_3
           (stepanimation_markup 100 100 50 50) None None (Some true)).
  reflexivity.
Defined.

(** *** Timers *)

Lemma start_timers (rev : revision) (o : option number) (w0 w : Window)
  (this : StepAnimation) :
  timers w = (own_timer this ++ timers w0)%list ->
  (next_handle w0 <= next_handle w)%nat ->
  (_active this = true -> exists h, _timer this = Some h /\ (next_handle w0 <= h)%nat) ->
  let s := start rev o w this in
  timers (fst s) = (own_timer (snd s) ++ timers w0)%list
  /\ (next_handle w0 <= next_handle (fst s))%nat
  /\ (_active (snd s) = true ->
      exists h, _timer (snd s) = Some h /\ (next_handle w0 <= h)%nat).
Proof.
  intros Ht Hn Ha. unfold start. destruct (_active this) eqn:E; cbn [fst snd].
  - auto.
  - unfold own_timer in *. rewrite E in Ht. cbn [app] in Ht.
    cbn [setInterval fst snd timers next_handle set_active set_timer
         container_classList_add with_classList _active _timer _interval app].
    rewrite Ht. repeat split; [lia|]. intros _. eauto.
Qed.

Lemma stop_timers (rev : revision) (w0 w : Window) (this : StepAnimation) :
  handles_below w0 ->
  timers w = (own_timer this ++ timers w0)%list ->
  (next_handle w0 <= next_handle w)%nat ->
  (_active this = true -> exists h, _timer this = Some h /\ (next_handle w0 <= h)%nat) ->
  let s := stop rev w this in
  timers (fst s) = (own_timer (snd s) ++ timers w0)%list
  /\ (next_handle w0 <= next_handle (fst s))%nat
  /\ _active (snd s) = false.
Proof.
  intros Hb Ht Hn Ha. unfold stop. destruct (_active this) eqn:E; cbn [negb fst snd].
  - destruct (Ha eq_refl) as (h & Hh & Hle).
    unfold own_timer in *. rewrite E, Hh in Ht. cbn [app] in Ht. rewrite Hh.
    cbn [clearInterval fst snd timers next_handle set_active
         container_classList_remove with_classList _active app].
    rewrite Ht. cbn [filter fst]. rewrite Nat.eqb_refl. cbn [negb].
    repeat split; [|exact Hn].
    clear Ht. unfold handles_below in Hb.
    induction (timers w0) as [|t l IH]; [reflexivity|].
    inversion Hb as [|? ? Hlt Hl]; subst. cbn.
    destruct (Nat.eqb_spec (fst t) h) as [Heq|_]; [lia|]. cbn. f_equal. exact (IH Hl).
  - unfold own_timer in *. rewrite E in *. auto.
Qed.

Lemma timers_kept_run_call (rev : revision) (w0 : Window) :
  handles_below w0 ->
  forall c w this w' this',
    timers_kept w0 w this ->
    run_call rev c (w, this) = Normal (w', this') ->
    timers_kept w0 w' this'.
Proof.
  intros Hb c w this w' this' (Ht & Hn & Ha) H.
  destruct (run_call_cases rev c w w' this this' H)
    as [(-> & forward & Hs)|[(-> & ->)|[(o & E)|[E|(v & E)]]]].
  - destruct (step_returned rev forward this this' Hs)
      as (g & x & _ & _ & _ & _ & (_ & _ & _ & Hact & Htm & Hiv & _)).
    unfold timers_kept, own_timer in *. rewrite Hact, Htm, Hiv. auto.
  - unfold timers_kept. auto.
  - pose proof (start_timers rev o w0 w this Ht Hn Ha) as Hs.
    rewrite <- E in Hs. exact Hs.
  - pose proof (stop_timers rev w0 w this Hb Ht Hn Ha) as (H1 & H2 & H3).
    rewrite <- E in H1, H2, H3. cbn [fst snd] in *.
    unfold timers_kept. repeat split; auto. congruence.
  - unfold set_interval in E.
    pose proof (stop_timers rev w0 w this Hb Ht Hn Ha) as (H1 & H2 & H3).
    destruct (stop rev w this) as [w1 t1]. cbn [fst snd] in *.
    assert (H1' : timers w1 = (own_timer (set_interval_field v t1) ++ timers w0)%list).
    { unfold own_timer in *. cbn. rewrite H3 in *. exact H1. }
    pose proof (start_timers rev None w0 w1 (set_interval_field v t1) H1' H2) as Hs.
    rewrite <- E in Hs. apply Hs. cbn. congruence.
Qed.

(** X8.  Start from an instance the constructor returned and a window whose
    live handles were all handed out already.  After any run of calls,
    interval assignments and ticks, the timers of the window are the ones it
    had, plus one when the instance is active and none when it is idle: the
    instance never holds two timers.  The one it holds has the handle stored
    in [_timer], a handle the window did not have, and the delay stored in
    [_interval]. *)
Theorem at_most_one_timer (rev : revision) (c : HTMLElement)
  (i : option number) (d : option string) (r : option bool)
  (this this' : StepAnimation) (w0 w' : Window) (cs : list call) :
  constructor rev c i d r = Normal this ->
  handles_below w0 ->
  run rev cs (w0, this) = Normal (w', this') ->
  timers w' = (own_timer this' ++ timers w0)%list
  /\ (_active this' = true ->
      exists h, own_timer this' = [(h, _interval this')]
                /\ ~ In h (map fst (timers w0))).
Proof.
  intros H Hb Hrun.
  destruct (constructor_Normal rev c i d r this H)
    as (g & _ & _ & _ & _ & _ & _ & Hact & _).
  assert (H0 : timers_kept w0 w0 this).
  { unfold timers_kept, own_timer. rewrite Hact. repeat split; auto.
    discriminate. }
  destruct (run_preserves rev (timers_kept w0) (timers_kept_run_call rev w0 Hb)
              cs w0 this w' this' H0 Hrun) as (Ht & _ & Ha).
  split; [exact Ht|]. intros Hact'.
  destruct (Ha Hact') as (h & Hh & Hle). exists h.
  unfold own_timer. rewrite Hact', Hh. split; [reflexivity|].
  intros Hin. apply in_map_iff in Hin as (t & <- & Hin).
  unfold handles_below in Hb. rewrite Forall_forall in Hb.
  specialize (Hb t Hin). lia.
Qed.

Lemma at_most_one_timer_witness :
  let w0 := mkWindow [(3%nat, Fin 1000)] 4 in
  let s :=
    outcome StepAnimation_0_0_3
      [Start None; Start None; SetInterval (Fin 40); Tick 5; Stop; Start None]
      (w0, five_frames StepAnimation_0_0_3) in
  timers (fst s) = (own_timer (snd s) ++ timers w0)%list
  /\ (_active (snd s) = true ->
      exists h, own_timer (snd s) = [(h, _interval (snd s))]
                /\ ~ In h (map fst (timers w0))).
Proof.
  intros w0 s.
  apply (at_most_one_timer StepAnimation_0_0_3
           (markup StepAnimation_0_0_3 100 100 500 100) None None None
           (five_frames StepAnimation_0_0_3) (snd s) w0 (fst s)
           [Start None; Start None; SetInterval (Fin 40); Tick 5; Stop; Start None]).
  - vm_compute. reflexivity.
  - repeat constructor.
  - vm_compute. reflexivity.
Defined.

(** *** The active class *)

Lemma ACTIVE_is_not_set_by_constructor (rev : revision) (horizontal reversed : bool)
  (l : list string) :
  contains (CSS_CLASS_ACTIVE (CONSTANTS rev)) (constructed_classList rev horizontal reversed l)
  = contains (CSS_CLASS_ACTIVE (CONSTANTS rev)) l.
Proof.
  unfold constructed_classList.
  destruct reversed; rewrite !contains_classList_add;
    destruct rev, horizontal; reflexivity.
Qed.

Lemma active_marked_start (rev : revision) (o : option number) (w : Window)
  (this : StepAnimation) :
  active_marked rev this -> active_marked rev (snd (start rev o w this)).
Proof.
  unfold active_marked, start. intros H.
  destruct (_active this) eqn:E; cbn [snd]; [congruence|].
  cbn [setInterval set_timer set_active container_classList_add with_classList
       elements container classList _active fst snd].
  rewrite contains_classList_add, String.eqb_refl. reflexivity.
Qed.

Lemma active_marked_stop (rev : revision) (w : Window) (this : StepAnimation) :
  active_marked rev this -> active_marked rev (snd (stop rev w this)).
Proof.
  unfold active_marked, stop. intros H.
  destruct (_active this) eqn:E; cbn [negb snd]; [|congruence].
  cbn [set_active container_classList_remove with_classList
       elements container classList _active].
  rewrite contains_classList_remove, String.eqb_refl. reflexivity.
Qed.

Lemma active_marked_run_call (rev : revision) :
  forall c w this w' this',
    active_marked rev this ->
    run_call rev c (w, this) = Normal (w', this') ->
    active_marked rev this'.
Proof.
  intros c w this w' this' Hm H.
  destruct (run_call_cases rev c w w' this this' H)
    as [(-> & forward & Hs)|[(-> & ->)|[(o & E)|[E|(v & E)]]]].
  - destruct (step_returned rev forward this this' Hs)
      as (g & x & _ & _ & _ & _ & (_ & _ & _ & Hact & _ & _ & Hc)).
    unfold active_marked in *. rewrite Hact, Hc. exact Hm.
  - exact Hm.
  - pose proof (active_marked_start rev o w this Hm) as Hs.
    rewrite <- E in Hs. exact Hs.
  - pose proof (active_marked_stop rev w this Hm) as Hs.
    rewrite <- E in Hs. exact Hs.
  - unfold set_interval in E.
    pose proof (active_marked_stop rev w this Hm) as Hs.
    destruct (stop rev w this) as [w1 t1]. cbn [snd] in Hs.
    pose proof (active_marked_start rev None w1 (set_interval_field v t1) Hs) as Hs'.
    rewrite <- E in Hs'. exact Hs'.
Qed.

(** X9.  If the container does not carry the active class when the instance
    is constructed, then after any run of calls, interval assignments and ticks
    it carries the active class exactly when the instance is active. *)
Theorem active_class_tracks_active (rev : revision) (c : HTMLElement)
  (i : option number) (d : option string) (r : option bool)
  (this this' : StepAnimation) (w w' : Window) (cs : list call) :
  constructor rev c i d r = Normal this ->
  contains (CSS_CLASS_ACTIVE (CONSTANTS rev)) (classList c) = false ->
  run rev cs (w, this) = Normal (w', this') ->
  contains (CSS_CLASS_ACTIVE (CONSTANTS rev)) (classList (container (elements this')))
  = _active this'.
Proof.
  intros H Hc Hrun.
  destruct (constructor_returns rev c i d r this H) as (g & _ & ->).
  apply (run_preserves rev (fun _ => active_marked rev)
           (active_marked_run_call rev) cs w (constructed rev c g i d r) w' this');
    [|exact Hrun].
  unfold active_marked. cbn [constructed elements container classList _active].
  rewrite ACTIVE_is_not_set_by_constructor. exact Hc.
Qed.

Lemma active_class_tracks_active_witness :
  let s :=
    outcome SpriteSequence_0_0_2 [Start None; Next; Stop; SetInterval (Fin 40)]
      (fresh_window, five_frames SpriteSequence_0_0_2) in
  contains (CSS_CLASS_ACTIVE (CONSTANTS SpriteSequence_0_0_2))
    (classList (container (elements (snd s))))
  = _active (snd s).
Proof.
  intros s.
  apply (active_class_tracks_active SpriteSequence_0_0_2
           (markup SpriteSequence_0_0_2 100 100 500 100) None None None
           (five_frames SpriteSequence_0_0_2) (snd s) fresh_window (fst s)
           [Start None; Next; Stop; SetInterval (Fin 40)]);
    vm_compute; reflexivity.
Defined.

(** *** Starting and stopping, composed *)

(** X10.  [start] is idempotent and so is [stop]: a second call in a row
    returns the window and the instance the first one returned, whatever
    argument it is given. *)
Theorem start_and_stop_idempotent (rev : revision) (o1 o2 : option number)
  (w : Window) (this : StepAnimation) :
  start rev o2 (fst (start rev o1 w this)) (snd (start rev o1 w this))
  = start rev o1 w this
  /\ stop rev (fst (stop rev w this)) (snd (stop rev w this)) = stop rev w this.
Proof.
  split.
  - pose proof (start_active rev o1 w this) as Ha.
    destruct (start rev o1 w this) as [w1 t1]. cbn [fst snd] in *.
    unfold start. rewrite Ha. reflexivity.
  - pose proof (stop_inactive rev w this) as Ha.
    destruct (stop rev w this) as [w1 t1]. cbn [fst snd] in *.
    unfold stop. rewrite Ha. reflexivity.
Qed.

Lemma filter_out_appended (a : string) (l : list string) :
  contains a l = false ->
  classList_remove a (l ++ [a]) = l.
Proof.
  unfold classList_remove, contains. induction l as [|x l IH]; cbn [existsb app filter].
  - intros _. rewrite String.eqb_refl. reflexivity.
  - intros H. apply orb_false_iff in H as (Hx & Hl).
    rewrite Hx. cbn [negb]. f_equal. exact (IH Hl).
Qed.

Lemma filter_fresh_handle (h : nat) (l : list (nat * number)) :
  Forall (fun t => (fst t < h)%nat) l ->
  filter (fun t => negb (Nat.eqb (fst t) h)) l = l.
Proof.
  induction 1 as [|t l Ht Hl IH]; cbn [filter]; [reflexivity|].
  destruct (Nat.eqb_spec (fst t) h); [lia|]. cbn [negb]. f_equal. exact IH.
Qed.

(** X11.  On an idle instance, in a window whose live handles were all handed
    out already, [start] followed by [stop] gives back the timers the window
    had, leaves the instance idle with its frame, geometry and sheet as they
    were, and leaves the handle it used dead.  If the container did not carry
    the active class, its class list is back to what it was as well. *)
Theorem start_then_stop_restores (rev : revision) (o : option number)
  (w : Window) (this : StepAnimation) :
  _active this = false ->
  handles_below w ->
  let s1 := start rev o w this in
  let s2 := stop rev (fst s1) (snd s1) in
  timers (fst s2) = timers w
  /\ _active (snd s2) = false
  /\ same_playhead this (snd s2)
  /\ (forall h, _timer (snd s1) = Some h -> timer_live h (fst s2) = false)
  /\ (contains (CSS_CLASS_ACTIVE (CONSTANTS rev))
        (classList (container (elements this))) = false ->
      classList (container (elements (snd s2)))
      = classList (container (elements this))).
Proof.
  intros Ha Hb. unfold start. rewrite Ha.
  cbn [setInterval fst snd]. unfold stop.
  cbn [set_active set_timer container_classList_add with_classList _active negb
       clearInterval _timer fst snd timers next_handle filter
       container_classList_remove elements container classList].
  rewrite Nat.eqb_refl. cbn [negb].
  assert (Hf : filter (fun t => negb (Nat.eqb (fst t) (next_handle w))) (timers w)
               = timers w) by (apply filter_fresh_handle; exact Hb).
  rewrite Hf. repeat split.
  - intros h [= <-]. unfold timer_live. cbn [timers].
    apply not_true_is_false. intros Hl. apply existsb_exists in Hl as (t & Hin & Ht).
    unfold handles_below in Hb. rewrite Forall_forall in Hb.
    specialize (Hb t Hin). apply Nat.eqb_eq in Ht. lia.
  - intros Hc. unfold classList_add. rewrite Hc. apply filter_out_appended. exact Hc.
Qed.

Lemma start_then_stop_restores_witness :
  let w := mkWindow [(3%nat, Fin 1000)] 4 in
  let this := five_frames StepAnimation_0_0_3 in
  let s1 := start StepAnimation_0_0_3 None w this in
  let s2 := stop StepAnimation_0_0_3 (fst s1) (snd s1) in
  timers (fst s2) = timers w
  /\ _active (snd s2) = false
  /\ same_playhead this (snd s2)
  /\ (forall h, _timer (snd s1) = Some h -> timer_live h (fst s2) = false)
  /\ (contains (CSS_CLASS_ACTIVE (CONSTANTS StepAnimation_0_0_3))
        (classList (container (elements this))) = false ->
      classList (container (elements (snd s2)))
      = classList (container (elements this))).
Proof.
  apply (start_then_stop_restores StepAnimation_0_0_3 None
           (mkWindow [(3%nat, Fin 1000)] 4) (five_frames StepAnimation_0_0_3)).
  - vm_compute. reflexivity.
  - repeat constructor.
Defined.

(** *** What the controls leave alone, and what the steps leave alone *)

Lemma same_playhead_refl (this : StepAnimation) : same_playhead this this.
Proof. unfold same_playhead. auto. Qed.

Lemma same_playhead_trans (a b c : StepAnimation) :
  same_playhead a b -> same_playhead b c -> same_playhead a c.
Proof. unfold same_playhead. intuition congruence. Qed.

(** X12.  A run made of [start], [stop] and interval assignments only, however
    long, returns and leaves the current frame, the frame geometry, the
    direction, the reverse flag and the sheet with its transform untouched:
    stopping and restarting resumes from the frame the instance was at. *)
Theorem controls_keep_the_playhead (rev : revision) (cs : list call) (w : Window)
  (this : StepAnimation) :
  forallb is_control cs = true ->
  exists w' this',
    run rev cs (w, this) = Normal (w', this') /\ same_playhead this this'.
Proof.
  revert w this. induction cs as [|c cs IH]; intros w this Hcs; cbn [run].
  - exists w, this. split; [reflexivity|apply same_playhead_refl].
  - cbn [forallb] in Hcs. apply andb_true_iff in Hcs as (Hc & Hcs).
    assert (H1 : exists w1 t1, run_call rev c (w, this) = Normal (w1, t1)
                               /\ same_playhead this t1).
    { destruct c as [o| | | |v|h]; try discriminate; cbn [run_call].
      - pose proof (start_same_playhead rev o w this) as Hs.
        destruct (start rev o w this) as [w1 t1]. eauto.
      - pose proof (stop_same_playhead rev w this) as Hs.
        destruct (stop rev w this) as [w1 t1]. eauto.
      - pose proof (set_interval_same_playhead rev v w this) as Hs.
        destruct (set_interval rev v w this) as [w1 t1]. eauto. }
    destruct H1 as (w1 & t1 & -> & Hs1). cbn [bind].
    destruct (IH w1 t1 Hcs) as (w' & this' & -> & Hs2).
    exists w', this'. split; [reflexivity|].
    exact (same_playhead_trans _ _ _ Hs1 Hs2).
Qed.

Lemma controls_keep_the_playhead_witness :
  exists w' this',
    run StepAnimation_0_0_3 [Start (Some (Fin 3)); Stop; SetInterval (Fin 40); Stop]
      (fresh_window, five_frames_reversed StepAnimation_0_0_3) = Normal (w', this')
    /\ same_playhead (five_frames_reversed StepAnimation_0_0_3) this'.
Proof.
  apply (controls_keep_the_playhead StepAnimation_0_0_3
           [Start (Some (Fin 3)); Stop; SetInterval (Fin 40); Stop]).
  reflexivity.
Defined.

(** X13.  A step that returns changes the current frame and the inline
    transform of the sheet and nothing else: not the window, not the timer,
    the interval, the active flag, the direction, the reverse flag or the frame
    geometry, not the container, and not the extents, classes or children of
    the sheet. *)
Theorem step_changes_frame_and_transform_only (rev : revision) (c : call)
  (w w' : Window) (this this' : StepAnimation) :
  is_control c = false ->
  run_call rev c (w, this) = Normal (w', this') ->
  w' = w
  /\ stepped this this'
  /\ match graphic (elements this), graphic (elements this') with
     | Some g, Some g' =>
         offsetWidth g' = offsetWidth g /\ offsetHeight g' = offsetHeight g
         /\ classList g' = classList g /\ children g' = children g
     | None, None => True
     | _, _ => False
     end.
Proof.
  intros Hc H.
  assert (Hstep : forall forward : bool,
             (if forward then next rev this else previous rev this) = Normal this' ->
             stepped this this'
             /\ match graphic (elements this), graphic (elements this') with
                | Some g, Some g' =>
                    offsetWidth g' = offsetWidth g /\ offsetHeight g' = offsetHeight g
                    /\ classList g' = classList g /\ children g' = children g
                | None, None => True
                | _, _ => False
                end).
  { intros forward Hs.
    destruct (step_returned rev forward this this' Hs)
      as (g & x & Hg & _ & _ & Hg' & Hst).
    split; [exact Hst|]. rewrite Hg, Hg'. cbn. auto. }
  destruct c as [o| | | |v|h]; try discriminate; cbn [run_call] in H.
  - apply bind_Normal in H as (t & Ht & Hr). injection Hr as <- <-.
    split; [reflexivity|]. exact (Hstep false Ht).
  - apply bind_Normal in H as (t & Ht & Hr). injection Hr as <- <-.
    split; [reflexivity|]. exact (Hstep true Ht).
  - destruct (timer_live h w).
    + apply bind_Normal in H as (t & Ht & Hr). injection Hr as <- <-.
      split; [reflexivity|]. unfold _nextOrPrevious in Ht.
      apply (Hstep (negb (_reversed this))). destruct (_reversed this); exact Ht.
    + injection H as <- <-. split; [reflexivity|].
      split; [unfold stepped; auto 10|]. destruct (graphic (elements this)); auto.
Qed.

Lemma step_changes_frame_and_transform_only_witness :
  let s := outcome StepAnimation_0_0_3 [Next] (fresh_window, five_frames StepAnimation_0_0_3) in
  fst s = fresh_window
  /\ stepped (five_frames StepAnimation_0_0_3) (snd s)
  /\ match graphic (elements (five_frames StepAnimation_0_0_3)),
           graphic (elements (snd s)) with
     | Some g, Some g' =>
         offsetWidth g' = offsetWidth g /\ offsetHeight g' = offsetHeight g
         /\ classList g' = classList g /\ children g' = children g
     | None, None => True
     | _, _ => False
     end.
Proof.
  intros s.
  apply (step_changes_frame_and_transform_only StepAnimation_0_0_3 Next
           fresh_window (fst s) (five_frames StepAnimation_0_0_3) (snd s));
    vm_compute; reflexivity.
Defined.

(** ** Steps at the bounds *)

(** X14.  A step against the direction of playback does not wrap to the other
    end.  On a non-reversed instance at frame 0, [previous()] leaves the frame
    at 0; on a reversed instance at its last frame, the frame count, [next()]
    leaves the frame at the frame count. *)
Theorem step_against_playback_stays (rev : revision) (this : StepAnimation)
  (cq : Q) :
  graphic (elements this) <> None ->
  count (_frameInfo this) = Fin cq ->
  (_reversed this = false ->
   same_value (_frame this) (Fin 0) ->
   exists this', previous rev this = Normal this' /\ _frame this' = Fin 0)
  /\ (_reversed this = true ->
      same_value (_frame this) (Fin cq) ->
      exists this', next rev this = Normal this' /\ _frame this' = Fin cq).
Proof.
  intros Hg Hc.
  destruct (graphic (elements this)) as [g|] eqn:Eg; [clear Hg|congruence].
  split; intros Hr Hf;
    destruct (_frame this) as [f| | |] eqn:Ef; try contradiction;
    cbn [same_value] in Hf.
  - destruct (previous_frame rev this g f cq Eg Ef Hc) as (t & g' & -> & _ & _ & Hf').
    exists t. split; [reflexivity|].
    destruct (Qle_bool 0 (f - 1)) eqn:E; [apply Qle_bool_iff in E; lra|].
    cbn [andb] in Hf'. rewrite Hf'. unfold _initialFrame. rewrite Hr. reflexivity.
  - destruct (next_frame rev this g f cq Eg Ef Hc) as (t & g' & -> & _ & _ & Hf').
    exists t. split; [reflexivity|].
    destruct (Qle_bool (f + 1) cq) eqn:E; [apply Qle_bool_iff in E; lra|].
    rewrite andb_false_r in Hf'. rewrite Hf'. unfold _initialFrame.
    rewrite Hr. exact Hc.
Qed.

Lemma step_against_playback_stays_witness :
  (exists this',
     previous StepAnimation_0_0_3 (five_frames StepAnimation_0_0_3) = Normal this'
     /\ _frame this' = Fin 0)
  /\ (exists this',
        next StepAnimation_0_0_3 (five_frames_reversed StepAnimation_0_0_3)
        = Normal this'
        /\ _frame this' = Fin (inject_Z 500 / inject_Z 100 - 1)).
Proof.
  split.
  - apply (step_against_playback_stays StepAnimation_0_0_3
             (five_frames StepAnimation_0_0_3) (inject_Z 500 / inject_Z 100 - 1));
      vm_compute; (reflexivity || discriminate).
  - apply (step_against_playback_stays StepAnimation_0_0_3
             (five_frames_reversed StepAnimation_0_0_3)
             (inject_Z 500 / inject_Z 100 - 1));
      vm_compute; (reflexivity || discriminate).
Defined.

(** X15.  Away from the bounds the two steps undo each other: when the frame
    [f] and [f + 1] both lie between 0 and the frame count, [next()] followed by
    [previous()] returns to [f]; when [f - 1] and [f] do, so does [previous()]
    followed by [next()]. *)
Theorem next_and_previous_undo_each_other (rev : revision) (this : StepAnimation)
  (f cq : Q) :
  graphic (elements this) <> None ->
  _frame this = Fin f ->
  count (_frameInfo this) = Fin cq ->
  (0 <= f -> f + 1 <= cq ->
   exists t1 t2, next rev this = Normal t1 /\ previous rev t1 = Normal t2
                 /\ same_value (_frame t2) (Fin f))
  /\ (0 <= f - 1 -> f <= cq ->
      exists t1 t2, previous rev this = Normal t1 /\ next rev t1 = Normal t2
                    /\ same_value (_frame t2) (Fin f)).
Proof.
  intros Hg Hf Hc.
  destruct (graphic (elements this)) as [g|] eqn:Eg; [clear Hg|congruence].
  split; intros H1 H2.
  - destruct (next_frame rev this g f cq Eg Hf Hc) as (t1 & g1 & Hn1 & Hg1 & Hs1 & Hf1).
    assert (E : Qle_bool 0 (f + 1) && Qle_bool (f + 1) cq = true)
      by (apply andb_true_iff; split; apply Qle_bool_iff; lra).
    rewrite E in Hf1. destruct Hs1 as (Hfi & _).
    destruct (previous_frame rev t1 g1 (f + 1) cq Hg1 Hf1) as (t2 & g2 & Hn2 & _ & _ & Hf2);
      [congruence|].
    assert (E' : Qle_bool 0 (f + 1 - 1) && Qle_bool (f + 1 - 1) cq = true)
      by (apply andb_true_iff; split; apply Qle_bool_iff; lra).
    rewrite E' in Hf2. exists t1, t2. split; [exact Hn1|]. split; [exact Hn2|].
    rewrite Hf2. cbn [same_value]. lra.
  - destruct (previous_frame rev this g f cq Eg Hf Hc) as (t1 & g1 & Hn1 & Hg1 & Hs1 & Hf1).
    assert (E : Qle_bool 0 (f - 1) && Qle_bool (f - 1) cq = true)
      by (apply andb_true_iff; split; apply Qle_bool_iff; lra).
    rewrite E in Hf1. destruct Hs1 as (Hfi & _).
    destruct (next_frame rev t1 g1 (f - 1) cq Hg1 Hf1) as (t2 & g2 & Hn2 & _ & _ & Hf2);
      [congruence|].
    assert (E' : Qle_bool 0 (f - 1 + 1) && Qle_bool (f - 1 + 1) cq = true)
      by (apply andb_true_iff; split; apply Qle_bool_iff; lra).
    rewrite E' in Hf2. exists t1, t2. split; [exact Hn1|]. split; [exact Hn2|].
    rewrite Hf2. cbn [same_value]. lra.
Qed.

Lemma next_and_previous_undo_each_other_witness :
  exists t1 t2,
    next StepAnimation_0_0_3 (five_frames StepAnimation_0_0_3) = Normal t1
    /\ previous StepAnimation_0_0_3 t1 = Normal t2
    /\ same_value (_frame t2) (Fin 0).
Proof.
  apply (next_and_previous_undo_each_other StepAnimation_0_0_3
           (five_frames StepAnimation_0_0_3) 0 (inject_Z 500 / inject_Z 100 - 1));
    vm_compute; (reflexivity || discriminate).
Defined.

(** ** Steps under a frame count that is no number *)

Lemma climb_forever (rev : revision) (n : nat) : forall this g f,
  graphic (elements this) = Some g ->
  _frame this = Fin f ->
  count (_frameInfo this) = PosInfinity ->
  0 <= f ->
  exists this' f',
    repeat_step (next rev) n this = Normal this'
    /\ _frame this' = Fin f' /\ f' == f + inject_Z (Z.of_nat n).
Proof.
  induction n as [|n IH]; intros this g f Hg Hf Hc H0; cbn [repeat_step].
  - exists this, f. repeat split; auto.
    change (inject_Z (Z.of_nat 0)) with 0. lra.
  - pose proof (inject_succ n) as Es.
    destruct (next_spec rev this g Hg) as (t1 & -> & Hf1 & Hg1 & (Hfi & _)).
    cbn [bind].
    assert (Hf1' : _frame t1 = Fin (f + 1)).
    { rewrite Hf1. unfold settled_frame, _frameInRange, ge.
      cbn [set_frame _frame _frameInfo]. rewrite Hf, Hc. cbn [add le].
      assert (E : Qle_bool 0 (f + 1) = true) by (apply Qle_bool_iff; lra).
      rewrite E. reflexivity. }
    destruct (IH t1 _ (f + 1) Hg1 Hf1') as (t2 & f2 & -> & Hf2 & E2);
      [congruence|lra|].
    exists t2, f2. repeat split; auto. lra.
Qed.

(** X16.  A non-reversed instance built on a container that measures zero
    along the axis of the sequence, around a sheet that does not, has an
    infinite frame count and never wraps: after [n] calls of [next()] the
    current frame is [n], for every [n]. *)
Theorem zero_extent_container_never_wraps (rev : revision) (c : HTMLElement)
  (i : option number) (d : option string) (r : option bool)
  (this : StepAnimation) (g : HTMLElement) (n : nat) :
  constructor rev c i d r = Normal this ->
  graphic (elements this) = Some g ->
  extent_along rev this c = 0%N ->
  extent_along rev this g <> 0%N ->
  _reversed this = false ->
  exists this',
    repeat_step (next rev) n this = Normal this'
    /\ same_value (_frame this') (Fin (inject_Z (Z.of_nat n))).
Proof.
  intros H Hg Hc Hs Hr.
  destruct (constructor_Normal rev c i d r this H)
    as (g0 & _ & Hg0 & _ & _ & _ & _ & _ & _ & _ & Hn & Hf).
  assert (g0 = g) by congruence. subst g0.
  assert (Hcount : count (_frameInfo this) = PosInfinity).
  { rewrite Hn, Hc. destruct (extent_along rev this g); [congruence|reflexivity]. }
  unfold _initialFrame in Hf. rewrite Hr in Hf.
  destruct (climb_forever rev n this g 0 Hg Hf Hcount) as (t & f' & -> & Hf' & E);
    [lra|].
  exists t. split; [reflexivity|]. rewrite Hf'. cbn [same_value]. lra.
Qed.

Lemma zero_extent_container_never_wraps_witness :
  exists this',
    repeat_step (next StepAnimation_0_0_3) 7
      (returned (constructor StepAnimation_0_0_3
                   (stepanimation_markup 0 100 500 100) None None None))
    = Normal this'
    /\ same_value (_frame this') (Fin (inject_Z (Z.of_nat 7))).
Proof.
  apply (zero_extent_container_never_wraps StepAnimation_0_0_3
           (stepanimation_markup 0 100 500 100) None None None
           (returned (constructor StepAnimation_0_0_3
                        (stepanimation_markup 0 100 500 100) None None None))
           (mkElement 500 100 ["stepanimation__graphic"] None []) 7);
    vm_compute; (reflexivity || discriminate).
Defined.

(** X17.  When the frame count is NaN (container and sheet both measure zero
    along the axis), no frame is ever in range: every step, forward or
    backward, returns and puts the current frame back to the initial frame,
    which is 0 for a non-reversed instance and NaN for a reversed one. *)
Theorem nan_count_pins_the_frame (rev : revision) (this : StepAnimation)
  (forward : bool) :
  graphic (elements this) <> None ->
  count (_frameInfo this) = NaN ->
  exists this',
    (if forward then next rev this else previous rev this) = Normal this'
    /\ _frame this' = if _reversed this then NaN else Fin 0.
Proof.
  intros Hg Hc.
  destruct (graphic (elements this)) as [g|] eqn:Eg; [clear Hg|congruence].
  assert (Hr : forall x, settled_frame (set_frame x this)
                         = if _reversed this then NaN else Fin 0).
  { intros x. unfold settled_frame, _frameInRange, _initialFrame.
    cbn [set_frame _frame _frameInfo _reversed]. rewrite Hc.
    destruct x; cbn [le ge andb]; rewrite ?andb_false_r; reflexivity. }
  destruct forward.
  - destruct (next_spec rev this g Eg) as (t & -> & Hf & _).
    exists t. split; [reflexivity|]. rewrite Hf. apply Hr.
  - destruct (previous_spec rev this g Eg) as (t & -> & Hf & _).
    exists t. split; [reflexivity|]. rewrite Hf. apply Hr.
Qed.

Lemma nan_count_pins_the_frame_witness :
  exists this',
    next StepAnimation_0_0_3
      (returned (constructor StepAnimation_0_0_3
                   (stepanimation_markup 0 0 0 0) None None None))
    = Normal this'
    /\ _frame this' = Fin 0.
Proof.
  apply (nan_count_pins_the_frame StepAnimation_0_0_3
           (returned (constructor StepAnimation_0_0_3
                        (stepanimation_markup 0 0 0 0) None None None)) true);
    vm_compute; (reflexivity || discriminate).
Defined.

(** ** The transform and the frame *)

Lemma transform_in_sync_same_playhead (rev : revision) (this this' : StepAnimation) :
  same_playhead this this' -> transform_in_sync rev this -> transform_in_sync rev this'.
Proof.
  unfold same_playhead, transform_in_sync, _isHorizontal.
  intros (-> & -> & _ & -> & ->). auto.
Qed.

Lemma transform_in_sync_run_call (rev : revision) :
  forall c w this w' this',
    transform_in_sync rev this ->
    run_call rev c (w, this) = Normal (w', this') ->
    transform_in_sync rev this'.
Proof.
  intros c w this w' this' Hsync H.
  destruct (run_call_cases rev c w w' this this' H)
    as [(-> & forward & Hs)|[(-> & ->)|[(o & E)|[E|(v & E)]]]].
  - destruct (step_returned rev forward this this' Hs)
      as (g & x & _ & _ & Hf & Hg' & (Hfi & _ & Hd & _)).
    unfold transform_in_sync. rewrite Hg'. right.
    unfold restyled, written_transform, _isHorizontal.
    cbn [style_transform set_frame _direction _frameInfo]. rewrite Hf, Hfi, Hd.
    reflexivity.
  - exact Hsync.
  - apply (transform_in_sync_same_playhead rev this); [|exact Hsync].
    pose proof (start_same_playhead rev o w this) as Hs. rewrite <- E in Hs. exact Hs.
  - apply (transform_in_sync_same_playhead rev this); [|exact Hsync].
    pose proof (stop_same_playhead rev w this) as Hs. rewrite <- E in Hs. exact Hs.
  - apply (transform_in_sync_same_playhead rev this); [|exact Hsync].
    pose proof (set_interval_same_playhead rev v w this) as Hs.
    rewrite <- E in Hs. exact Hs.
Qed.

(** X18.  The inline transform follows the frame.  If the sheet of an
    instance has no inline transform, or has the translation of the current
    frame, then after any run of calls, interval assignments and ticks the
    sheet still has no inline transform or has the translation of the frame the
    instance is then at: along X when horizontal, along Y otherwise, by the
    frame times the frame height. *)
Theorem transform_follows_frame (rev : revision) (cs : list call)
  (w w' : Window) (this this' : StepAnimation) :
  transform_in_sync rev this ->
  run rev cs (w, this) = Normal (w', this') ->
  transform_in_sync rev this'.
Proof.
  intros Hsync Hrun.
  exact (run_preserves rev (fun _ => transform_in_sync rev)
           (transform_in_sync_run_call rev) cs w this w' this' Hsync Hrun).
Qed.

Lemma transform_follows_frame_witness :
  let s :=
    outcome StepAnimation_0_0_3 [Start None; Tick 1; Next; Stop; Previous; Start None]
      (fresh_window, five_frames StepAnimation_0_0_3) in
  transform_in_sync StepAnimation_0_0_3 (snd s).
Proof.
  intros s.
  apply (transform_follows_frame StepAnimation_0_0_3
           [Start None; Tick 1; Next; Stop; Previous; Start None]
           fresh_window (fst s) (five_frames StepAnimation_0_0_3) (snd s)).
  - left. reflexivity.
  - vm_compute. reflexivity.
Defined.

(** ** Versions 0.0.3 and 0.0.2 side by side *)

Lemma alike_start (r1 r2 : revision) (o : option number) (w : Window)
  (t1 t2 : StepAnimation) :
  alike t1 t2 ->
  fst (start r1 o w t1) = fst (start r2 o w t2)
  /\ alike (snd (start r1 o w t1)) (snd (start r2 o w t2)).
Proof.
  unfold alike, start. intros (Hi & Hd & Hr & Ha & Ht & Hfi & Hf & Hg).
  rewrite <- Ha. destruct (_active t1) eqn:E; cbn; rewrite ?Hi;
    repeat split; auto; congruence.
Qed.

Lemma alike_stop (r1 r2 : revision) (w : Window) (t1 t2 : StepAnimation) :
  alike t1 t2 ->
  fst (stop r1 w t1) = fst (stop r2 w t2)
  /\ alike (snd (stop r1 w t1)) (snd (stop r2 w t2)).
Proof.
  unfold alike, stop. intros (Hi & Hd & Hr & Ha & Ht & Hfi & Hf & Hg).
  rewrite <- Ha. destruct (_active t1) eqn:E; cbn [negb fst snd];
    [|repeat split; auto; congruence].
  rewrite <- Ht. cbn. repeat split; auto.
Qed.

Lemma alike_set_interval (r1 r2 : revision) (v : number) (w : Window)
  (t1 t2 : StepAnimation) :
  alike t1 t2 ->
  fst (set_interval r1 v w t1) = fst (set_interval r2 v w t2)
  /\ alike (snd (set_interval r1 v w t1)) (snd (set_interval r2 v w t2)).
Proof.
  intros H. unfold set_interval.
  destruct (alike_stop r1 r2 w t1 t2 H) as (Hw & Ha).
  destruct (stop r1 w t1) as [w1 u1], (stop r2 w t2) as [w2 u2].
  cbn [fst snd] in *. subst w2.
  apply alike_start. unfold alike in *. cbn. intuition.
Qed.

Lemma alike_step (r1 r2 : revision) (forward : bool) (t1 t2 t1' t2' : StepAnimation) :
  alike t1 t2 ->
  (if forward then next r1 t1 else previous r1 t1) = Normal t1' ->
  (if forward then next r2 t2 else previous r2 t2) = Normal t2' ->
  alike t1' t2'.
Proof.
  intros (Hi & Hd & Hr & Ha & Ht & Hfi & Hf & Hg) H1 H2.
  destruct (step_returned r1 forward t1 t1' H1)
    as (g1 & x1 & _ & Hx1 & Hf1 & Hg1 & (Hfi1 & Hr1 & Hd1 & Ha1 & Ht1 & Hi1 & _)).
  destruct (step_returned r2 forward t2 t2' H2)
    as (g2 & x2 & _ & Hx2 & Hf2 & Hg2 & (Hfi2 & Hr2 & Hd2 & Ha2 & Ht2 & Hi2 & _)).
  assert (Hx : x1 = x2) by (subst x1 x2; rewrite Hf; reflexivity).
  assert (Hs : settled_frame (set_frame x1 t1) = settled_frame (set_frame x2 t2)).
  { unfold settled_frame, _frameInRange, _initialFrame.
    cbn [set_frame _frame _frameInfo _reversed]. rewrite Hx, Hfi, Hr. reflexivity. }
  unfold alike. repeat split; try congruence.
  rewrite Hg1, Hg2. cbn [option_map restyled style_transform].
  unfold written_transform, _isHorizontal. cbn [set_frame _direction _frameInfo].
  rewrite Hs, Hd, Hfi. destruct r1, r2; reflexivity.
Qed.

Lemma alike_run_call (r1 r2 : revision) (c : call) (w w1 w2 : Window)
  (t1 t2 t1' t2' : StepAnimation) :
  alike t1 t2 ->
  run_call r1 c (w, t1) = Normal (w1, t1') ->
  run_call r2 c (w, t2) = Normal (w2, t2') ->
  w1 = w2 /\ alike t1' t2'.
Proof.
  intros H H1 H2. destruct c as [o| | | |v|h]; cbn [run_call] in H1, H2.
  - destruct (alike_start r1 r2 o w t1 t2 H) as (Hw & Ha).
    injection H1 as E1. injection H2 as E2. rewrite E1, E2 in *. exact (conj Hw Ha).
  - destruct (alike_stop r1 r2 w t1 t2 H) as (Hw & Ha).
    injection H1 as E1. injection H2 as E2. rewrite E1, E2 in *. exact (conj Hw Ha).
  - apply bind_Normal in H1 as (u1 & Hu1 & E1). injection E1 as <- <-.
    apply bind_Normal in H2 as (u2 & Hu2 & E2). injection E2 as <- <-.
    split; [reflexivity|]. exact (alike_step r1 r2 false t1 t2 u1 u2 H Hu1 Hu2).
  - apply bind_Normal in H1 as (u1 & Hu1 & E1). injection E1 as <- <-.
    apply bind_Normal in H2 as (u2 & Hu2 & E2). injection E2 as <- <-.
    split; [reflexivity|]. exact (alike_step r1 r2 true t1 t2 u1 u2 H Hu1 Hu2).
  - destruct (alike_set_interval r1 r2 v w t1 t2 H) as (Hw & Ha).
    injection H1 as E1. injection H2 as E2. rewrite E1, E2 in *. exact (conj Hw Ha).
  - destruct (timer_live h w).
    + apply bind_Normal in H1 as (u1 & Hu1 & E1). injection E1 as <- <-.
      apply bind_Normal in H2 as (u2 & Hu2 & E2). injection E2 as <- <-.
      split; [reflexivity|].
      assert (Hr : _reversed t1 = _reversed t2) by apply H.
      unfold _nextOrPrevious in Hu1, Hu2. rewrite <- Hr in Hu2.
      apply (alike_step r1 r2 (negb (_reversed t1)) t1 t2 u1 u2 H);
        destruct (_reversed t1); assumption.
    + injection H1 as <- <-. injection H2 as <- <-. auto.
Qed.

Lemma alike_run (r1 r2 : revision) (cs : list call) :
  forall w t1 t2 w1 w2 t1' t2',
    alike t1 t2 ->
    run r1 cs (w, t1) = Normal (w1, t1') ->
    run r2 cs (w, t2) = Normal (w2, t2') ->
    w1 = w2 /\ alike t1' t2'.
Proof.
  induction cs as [|c cs IH]; intros w t1 t2 w1 w2 t1' t2' H H1 H2;
    cbn [run] in H1, H2.
  - injection H1 as <- <-. injection H2 as <- <-. auto.
  - apply bind_Normal in H1 as ([v1 u1] & Hc1 & H1).
    apply bind_Normal in H2 as ([v2 u2] & Hc2 & H2).
    destruct (alike_run_call r1 r2 c w v1 v2 t1 t2 u1 u2 H Hc1 Hc2) as (-> & Hu).
    exact (IH v2 u1 u2 w1 w2 t1' t2' Hu H1 H2).
Qed.

(** X19.  Versions 0.0.3 and 0.0.2 behave alike.  Construct one instance of
    each, with the same arguments, on containers of equal extents whose sheets
    have equal extents and equal inline transforms, and run the same calls on
    both from the same window.  The two windows end equal, and the two
    instances agree on the interval, direction, reverse flag, active flag,
    timer handle, frame geometry, current frame and the transform of the
    sheet; they differ by their class names only. *)
Theorem versions_behave_alike (r1 r2 : revision) (c1 c2 g1 g2 : HTMLElement)
  (i : option number) (d : option string) (r : option bool)
  (t1 t2 t1' t2' : StepAnimation) (w w1 w2 : Window) (cs : list call) :
  constructor r1 c1 i d r = Normal t1 ->
  constructor r2 c2 i d r = Normal t2 ->
  graphic (elements t1) = Some g1 ->
  graphic (elements t2) = Some g2 ->
  offsetWidth c1 = offsetWidth c2 /\ offsetHeight c1 = offsetHeight c2 ->
  offsetWidth g1 = offsetWidth g2 /\ offsetHeight g1 = offsetHeight g2 ->
  style_transform g1 = style_transform g2 ->
  run r1 cs (w, t1) = Normal (w1, t1') ->
  run r2 cs (w, t2) = Normal (w2, t2') ->
  w1 = w2 /\ alike t1' t2'.
Proof.
  intros H1 H2 Hg1 Hg2 (Hcw & Hch) (Hgw & Hgh) Hst Hr1 Hr2.
  apply (alike_run r1 r2 cs w t1 t2 w1 w2 t1' t2'); [|exact Hr1|exact Hr2].
  destruct (constructor_returns r1 c1 i d r t1 H1) as (k1 & _ & E1).
  destruct (constructor_returns r2 c2 i d r t2 H2) as (k2 & _ & E2).
  subst t1 t2. cbn [constructed elements graphic] in Hg1, Hg2.
  injection Hg1 as ->. injection Hg2 as ->.
  assert (Hd : resolved_direction d g1 = resolved_direction d g2).
  { unfold resolved_direction, inferred_direction. rewrite Hgw, Hgh. reflexivity. }
  unfold alike, constructed.
  cbn [_interval _direction _reversed _active _timer _frameInfo _frame elements
       graphic option_map].
  rewrite Hd, Hcw, Hch, Hgw, Hgh, Hst. repeat split.
Qed.

Lemma versions_behave_alike_witness :
  let cs := [Start None; Tick 1; Next; SetInterval (Fin 40); Previous; Stop] in
  let s1 := outcome StepAnimation_0_0_3 cs (fresh_window, five_frames StepAnimation_0_0_3) in
  let s2 := outcome SpriteSequence_0_0_2 cs (fresh_window, five_frames SpriteSequence_0_0_2) in
  fst s1 = fst s2 /\ alike (snd s1) (snd s2).
Proof.
  intros cs s1 s2.
  apply (versions_behave_alike StepAnimation_0_0_3 SpriteSequence_0_0_2
           (markup StepAnimation_0_0_3 100 100 500 100)
           (markup SpriteSequence_0_0_2 100 100 500 100)
           (mkElement 500 100 ["stepanimation__graphic"] None [])
           (mkElement 500 100 ["spritesequencer__graphic"] None [])
           None None None
           (five_frames StepAnimation_0_0_3) (five_frames SpriteSequence_0_0_2)
           (snd s1) (snd s2) fresh_window (fst s1) (fst s2) cs);
    try (vm_compute; reflexivity); split; reflexivity.
Defined.

(** ** Version 0.0.1 *)

Lemma legacy_constructor_shape (c : HTMLElement) (i : option number)
  (d : option string) (r : option bool) :
  Legacy.constructor c i d r
  = match querySelector_class "spritesequencer__graphic" c with
    | Some g => Normal (legacy_constructed c g i d r)
    | None => Throw TypeError
    end.
Proof.
  unfold Legacy.constructor, legacy_constructed, legacy_direction, wider_than_tall,
    Legacy._calculateDirection, Legacy.DIRECTION_AUTO, Legacy.DIRECTION_VERTICAL,
    Legacy.DIRECTION_HORIZONTAL, default_reverse.
  cbv zeta. cbn [_direction elements graphic].
  destruct (querySelector_class "spritesequencer__graphic" c) as [g|].
  - destruct d as [x|].
    + destruct (String.eqb x "auto"); [|reflexivity].
      cbn [deref bind]. destruct (offsetHeight g <? offsetWidth g)%N; reflexivity.
    + cbn [String.eqb Ascii.eqb Bool.eqb deref bind].
      destruct (offsetHeight g <? offsetWidth g)%N; reflexivity.
  - destruct d as [x|].
    + destruct (String.eqb x "auto"); reflexivity.
    + reflexivity.
Qed.

Lemma legacy_step_spec (forward : bool) (this : StepAnimation) (g : HTMLElement) :
  graphic (elements this) = Some g ->
  exists this',
    (if forward then Legacy.next this else Legacy.previous this) = Normal this'
    /\ _frame this'
       = settled_frame
           (set_frame (if forward then add (_frame this) (Fin 1)
                       else sub (_frame this) (Fin 1)) this)
    /\ graphic (elements this')
       = Some (restyled g
                 (TranslateMinus
                    (if String.eqb (_direction this) "horizontal" then Y else X)
                    (mul (_frame this') (height (_frameInfo this)))))
    /\ stepped this this'.
Proof.
  intros Hg.
  assert (H : forall t, graphic (elements t) = Some g ->
              exists t', Legacy._calculateNextFrame t = Normal t'
                         /\ _frame t' = settled_frame t
                         /\ graphic (elements t')
                            = Some (restyled g
                                      (TranslateMinus
                                         (if String.eqb (_direction t) "horizontal"
                                          then Y else X)
                                         (mul (_frame t') (height (_frameInfo t)))))
                         /\ stepped t t').
  { intros t Ht.
    unfold Legacy._calculateNextFrame, Legacy._frameIsInRange, settled_frame,
      _frameInRange, _initialFrame. cbv zeta.
    destruct (ge (_frame t) (Fin 0) && le (_frame t) (count (_frameInfo t)));
      cbn [negb set_frame elements]; rewrite Ht; cbn [deref bind];
      eexists; (split; [reflexivity|]); unfold stepped, restyled; cbn;
      destruct (String.eqb (_direction t) "horizontal"); repeat split. }
  destruct forward; unfold Legacy.next, Legacy.previous; cbv zeta;
    apply (H (set_frame _ this)); exact Hg.
Qed.

(** X20.  In 0.0.1 the constructor, when it finds the sheet, returns an
    instance at frame 0 whatever the reverse flag, with a frame count taken from
    the widths of sheet and container whatever the direction, and with the
    container as it was given, no class added. *)
Theorem legacy_constructor_ignores_reverse_and_axis (c : HTMLElement)
  (i : option number) (d : option string) (r : option bool)
  (this : StepAnimation) (g : HTMLElement) :
  Legacy.constructor c i d r = Normal this ->
  graphic (elements this) = Some g ->
  _frame this = Fin 0
  /\ _reversed this = default_reverse r
  /\ count (_frameInfo this)
     = sub (div (of_N (offsetWidth g)) (of_N (offsetWidth c))) (Fin 1)
  /\ container (elements this) = c.
Proof.
  rewrite legacy_constructor_shape.
  destruct (querySelector_class _ c) as [g0|]; [|discriminate].
  intros [= <-] [= <-]. repeat split.
Qed.

Lemma legacy_constructor_ignores_reverse_and_axis_witness :
  let c := spritesequencer_markup 100 100 100 500 in
  let this := returned (Legacy.constructor c None (Some "vertical") (Some true)) in
  _frame this = Fin 0
  /\ _reversed this = true
  /\ count (_frameInfo this) = sub (div (of_N 100) (of_N 100)) (Fin 1)
  /\ container (elements this) = c.
Proof.
  apply (legacy_constructor_ignores_reverse_and_axis
           (spritesequencer_markup 100 100 100 500) None (Some "vertical") (Some true)
           (returned (Legacy.constructor (spritesequencer_markup 100 100 100 500)
                        None (Some "vertical") (Some true)))
           (mkElement 100 500 ["spritesequencer__graphic"] None []));
    reflexivity.
Defined.

Lemma settled_offset_valid (this : StepAnimation) (cq h : Q) :
  count (_frameInfo this) = Fin cq -> 0 <= cq ->
  height (_frameInfo this) = Fin h -> 0 <= h ->
  valid_offset (mul (settled_frame this) (height (_frameInfo this))) = true.
Proof.
  intros Hc Hcq Hh Hh0.
  assert (Hle : le (Fin 0) (count (_frameInfo this)) = true)
    by (rewrite Hc; apply Qle_bool_iff; exact Hcq).
  pose proof (settled_frame_in_range this Hle) as Hr.
  unfold _frameInRange, ge in Hr. apply andb_true_iff in Hr as (H0 & H1).
  rewrite Hc in H1. rewrite Hh.
  destruct (settled_frame this) as [q| | |]; try discriminate.
  cbn [le] in H0. apply Qle_bool_iff in H0.
  cbn [mul valid_offset]. apply Qle_bool_iff. apply Qmult_le_0_compat; assumption.
Qed.

(** X21.  In 0.0.1, on an instance whose frame count and frame height are
    finite and not negative, a step, forward or backward, translates the sheet
    along Y when the direction is 'horizontal' and along X otherwise, the
    reverse of what 0.0.3 and 0.0.2 do, by the new frame times the frame
    height, an offset the browser keeps. *)
Theorem legacy_step_axis_exchanged (forward : bool) (this : StepAnimation)
  (g : HTMLElement) (cq h : Q) :
  graphic (elements this) = Some g ->
  count (_frameInfo this) = Fin cq -> 0 <= cq ->
  height (_frameInfo this) = Fin h -> 0 <= h ->
  exists this' g',
    (if forward then Legacy.next this else Legacy.previous this) = Normal this'
    /\ graphic (elements this') = Some g'
    /\ valid_offset (mul (_frame this') (height (_frameInfo this'))) = true
    /\ style_transform g'
       = Some (TranslateMinus
                 (if String.eqb (_direction this') "horizontal" then Y else X)
                 (mul (_frame this') (height (_frameInfo this')))).
Proof.
  intros Hg Hc Hcq Hh Hh0.
  destruct (legacy_step_spec forward this g Hg)
    as (t & Hrun & Hf & Hg' & (Hfi & _ & Hd & _)).
  exists t. eexists. split; [exact Hrun|]. split; [exact Hg'|]. split.
  - rewrite Hf, Hfi. exact (settled_offset_valid (set_frame _ this) cq h Hc Hcq Hh Hh0).
  - cbn [restyled style_transform]. rewrite Hfi, Hd. reflexivity.
Qed.

Lemma legacy_step_axis_exchanged_witness :
  exists this' g',
    Legacy.next
      (returned (Legacy.constructor (spritesequencer_markup 100 100 500 100)
                   None (Some "horizontal") None)) = Normal this'
    /\ graphic (elements this') = Some g'
    /\ valid_offset (mul (_frame this') (height (_frameInfo this'))) = true
    /\ style_transform g'
       = Some (TranslateMinus
                 (if String.eqb (_direction this') "horizontal" then Y else X)
                 (mul (_frame this') (height (_frameInfo this')))).
Proof.
  apply (legacy_step_axis_exchanged true
           (returned (Legacy.constructor (spritesequencer_markup 100 100 500 100)
                        None (Some "horizontal") None))
           (mkElement 500 100 ["spritesequencer__graphic"] None [])
           (inject_Z 500 / inject_Z 100 - 1) (inject_Z 100));
    vm_compute; (reflexivity || discriminate).
Defined.



(** X23.  In 0.0.1 a sheet exactly as wide as its container, which is what a
    vertical strip of frames is, has frame count 0: on a non-reversed instance
    every call of [next()] returns and leaves the current frame at 0, however
    many frames the sheet stacks. *)
Theorem legacy_vertical_strip_never_advances (c : HTMLElement)
  (i : option number) (d : option string) (r : option bool)
  (this : StepAnimation) (g : HTMLElement) (n : nat) :
  Legacy.constructor c i d r = Normal this ->
  graphic (elements this) = Some g ->
  offsetWidth g = offsetWidth c ->
  offsetWidth c <> 0%N ->
  default_reverse r = false ->
  exists this',
    repeat_step Legacy.next n this = Normal this' /\ _frame this' = Fin 0.
Proof.
  intros H Hg Hw Hc Hr.
  assert (Hshape : _frame this = Fin 0 /\ _reversed this = default_reverse r
                   /\ count (_frameInfo this)
                      = sub (div (of_N (offsetWidth g)) (of_N (offsetWidth c))) (Fin 1)).
  { rewrite legacy_constructor_shape in H.
    destruct (querySelector_class _ c) as [g0|]; [|discriminate].
    injection H as <-. cbn [legacy_constructed elements graphic] in Hg.
    injection Hg as ->. repeat split. }
  destruct Hshape as (Hf & Hrev & Hn).
  rewrite Hw, (count_ratio _ _ Hc) in Hn. rewrite Hr in Hrev.
  assert (Hz : inject_Z (Z.of_N (offsetWidth c)) / inject_Z (Z.of_N (offsetWidth c)) - 1
               == 0).
  { field. intros E. unfold Qeq in E. cbn in E. lia. }
  clear H Hw.
  revert this g Hg Hf Hrev Hn.
  induction n as [|n IH]; intros this g Hg Hf Hrev Hn; cbn [repeat_step].
  - exists this. auto.
  - destruct (legacy_step_spec true this g Hg) as (t & -> & Hf' & Hg' & (Hfi & Hr' & _)).
    cbn [bind]. apply (IH t _ Hg'); try congruence.
    rewrite Hf'. unfold settled_frame, _frameInRange, _initialFrame, ge.
    cbn [set_frame _frame _frameInfo _reversed]. rewrite Hf, Hn, Hrev. cbn [add le].
    destruct (Qle_bool (0 + 1) _) eqn:E; [apply Qle_bool_iff in E; lra|].
    rewrite andb_false_r. reflexivity.
Qed.

Lemma legacy_vertical_strip_never_advances_witness :
  exists this',
    repeat_step Legacy.next 3
      (returned (Legacy.constructor (spritesequencer_markup 100 100 100 500)
                   None None None)) = Normal this'
    /\ _frame this' = Fin 0.
Proof.
  apply (legacy_vertical_strip_never_advances
           (spritesequencer_markup 100 100 100 500) None None None
           (returned (Legacy.constructor (spritesequencer_markup 100 100 100 500)
                        None None None))
           (mkElement 100 500 ["spritesequencer__graphic"] None []) 3);
    vm_compute; (reflexivity || discriminate).
Defined.

(** ** The cycle, from any frame *)

Lemma repeat_step_add step (a b : nat) : forall this : StepAnimation,
  repeat_step step (a + b) this = bind (repeat_step step a this) (repeat_step step b).
Proof.
  induction a as [|a IH]; intros this; cbn [repeat_step Nat.add bind].
  - reflexivity.
  - destruct (step this) as [t|e]; cbn [bind]; [apply IH|reflexivity].
Qed.

(** X24.  The cycle has period [n + 1] from every frame, not only from the
    initial one.  On an instance whose frame count is the natural number [n]
    and whose current frame is a natural number [k <= n]: if it is not
    reversed, [n + 1] calls of [next()] bring the frame back to [k]; if it is
    reversed, [n + 1] calls of [previous()] do. *)
Theorem cycle_from_any_frame (rev : revision) (this : StepAnimation) (n k : nat) :
  graphic (elements this) <> None ->
  same_value (count (_frameInfo this)) (Fin (inject_Z (Z.of_nat n))) ->
  same_value (_frame this) (Fin (inject_Z (Z.of_nat k))) ->
  (k <= n)%nat ->
  exists this',
    repeat_step (if _reversed this then previous rev else next rev) (S n) this
    = Normal this'
    /\ same_value (_frame this') (Fin (inject_Z (Z.of_nat k))).
Proof.
  intros Hg Hn Hk Hle.
  destruct (graphic (elements this)) as [g|] eqn:Eg; [clear Hg|congruence].
  destruct (count (_frameInfo this)) as [cq| | |] eqn:Ec; try contradiction.
  destruct (_frame this) as [f| | |] eqn:Ef; try contradiction.
  cbn [same_value] in Hn, Hk.
  pose proof (inject_nat_nonneg k) as Hk0.
  pose proof (inject_nat_nonneg (n - k)) as Hnk0.
  assert (Hsplit : inject_Z (Z.of_nat (n - k)) == inject_Z (Z.of_nat n) - inject_Z (Z.of_nat k)).
  { rewrite Nat2Z.inj_sub by exact Hle.
    unfold Qeq, Qminus, Qplus, Qopp, inject_Z. simpl. lia. }
  destruct (_reversed this) eqn:Er.
  - replace (S n) with (k + S (n - k))%nat by lia. rewrite repeat_step_add.
    destruct (descend rev cq k this g f Eg Ef Ec)
      as (t1 & g1 & f1 & -> & Hg1 & Hfi1 & Hr1 & Hf1 & E1); try lra.
    cbn [bind repeat_step].
    destruct (previous_frame rev t1 g1 f1 cq Hg1 Hf1) as (t2 & g2 & -> & Hg2 & Hs2 & Hf2);
      [congruence|].
    cbn [bind].
    destruct (Qle_bool 0 (f1 - 1)) eqn:E; [apply Qle_bool_iff in E; lra|].
    cbn [andb] in Hf2. unfold _initialFrame in Hf2.
    rewrite Hr1, Er, Hfi1, Ec in Hf2. destruct Hs2 as (Hfi2 & Hr2 & _).
    destruct (descend rev cq (n - k) t2 g2 cq Hg2 Hf2)
      as (t3 & g3 & f3 & -> & _ & _ & _ & Hf3 & E3); try congruence; try lra.
    exists t3. split; [reflexivity|]. rewrite Hf3. cbn [same_value]. lra.
  - replace (S n) with ((n - k) + S k)%nat by lia. rewrite repeat_step_add.
    destruct (climb rev cq (n - k) this g f Eg Ef Ec)
      as (t1 & g1 & f1 & -> & Hg1 & Hfi1 & Hr1 & Hf1 & E1); try lra.
    cbn [bind repeat_step].
    destruct (next_frame rev t1 g1 f1 cq Hg1 Hf1) as (t2 & g2 & -> & Hg2 & Hs2 & Hf2);
      [congruence|].
    cbn [bind].
    destruct (Qle_bool (f1 + 1) cq) eqn:E; [apply Qle_bool_iff in E; lra|].
    rewrite andb_false_r in Hf2. unfold _initialFrame in Hf2.
    rewrite Hr1, Er in Hf2. destruct Hs2 as (Hfi2 & Hr2 & _).
    destruct (climb rev cq k t2 g2 0 Hg2 Hf2)
      as (t3 & g3 & f3 & -> & _ & _ & _ & Hf3 & E3); try congruence; try lra.
    exists t3. split; [reflexivity|]. rewrite Hf3. cbn [same_value]. lra.
Qed.

Lemma cycle_from_any_frame_witness :
  let this :=
    returned (repeat_step (next StepAnimation_0_0_3) 3 (five_frames StepAnimation_0_0_3)) in
  exists this',
    repeat_step (next StepAnimation_0_0_3) 5 this = Normal this'
    /\ same_value (_frame this') (Fin (inject_Z (Z.of_nat 3))).
Proof.
  intros this.
  apply (cycle_from_any_frame StepAnimation_0_0_3 this 4 3);
    [vm_compute; discriminate|vm_compute; reflexivity|vm_compute; reflexivity|lia].
Defined.

(** ** Whole frames *)

Lemma is_integer_step (x : number) :
  is_integer x = true ->
  is_integer (add x (Fin 1)) = true /\ is_integer (sub x (Fin 1)) = true.
Proof.
  destruct x as [[n d]| | |]; try discriminate.
  unfold is_integer, sub, neg, add, Qplus, Qopp. cbn [Qnum Qden].
  rewrite !Z.eqb_eq, !Pos.mul_1_r, !Z.mul_1_r. intros H.
  split.
  - rewrite Z.mod_add by lia. exact H.
  - replace (n + Z.neg 1 * Z.pos d)%Z with (n + (-1) * Z.pos d)%Z by lia.
    rewrite Z.mod_add by lia. exact H.
Qed.

Lemma whole_frames_run_call (rev : revision) :
  forall c w this w' this',
    whole_frames this ->
    run_call rev c (w, this) = Normal (w', this') ->
    whole_frames this'.
Proof.
  intros c w this w' this' (Hf & Hi) H.
  assert (Hsame : forall t, same_playhead this t -> whole_frames t).
  { unfold same_playhead, whole_frames, _initialFrame in *.
    intros t (-> & -> & -> & _). auto. }
  destruct (run_call_cases rev c w w' this this' H)
    as [(-> & forward & Hs)|[(-> & ->)|[(o & E)|[E|(v & E)]]]].
  - destruct (step_returned rev forward this this' Hs)
      as (g & x & _ & Hx & Hf' & _ & (Hfi & Hr & _)).
    destruct (is_integer_step _ Hf) as (Ha & Hb).
    unfold whole_frames, _initialFrame in *. rewrite Hf', Hfi, Hr. split; [|exact Hi].
    unfold settled_frame, _initialFrame. cbn [set_frame _frame _frameInfo _reversed].
    destruct (_frameInRange _ x); [|exact Hi].
    subst x. destruct forward; assumption.
  - split; assumption.
  - apply Hsame. pose proof (start_same_playhead rev o w this) as Hs.
    rewrite <- E in Hs. exact Hs.
  - apply Hsame. pose proof (stop_same_playhead rev w this) as Hs.
    rewrite <- E in Hs. exact Hs.
  - apply Hsame. pose proof (set_interval_same_playhead rev v w this) as Hs.
    rewrite <- E in Hs. exact Hs.
Qed.

(** X25.  Frames stay whole.  For an instance the constructor returned that is
    not reversed, or whose frame count is a whole number, the current frame is
    a whole number after any run of calls, interval assignments and ticks. *)
Theorem frames_stay_whole (rev : revision) (c : HTMLElement)
  (i : option number) (d : option string) (r : option bool)
  (this this' : StepAnimation) (w w' : Window) (cs : list call) :
  constructor rev c i d r = Normal this ->
  _reversed this = false \/ is_integer (count (_frameInfo this)) = true ->
  run rev cs (w, this) = Normal (w', this') ->
  is_integer (_frame this') = true.
Proof.
  intros H Hw Hrun.
  destruct (constructor_Normal rev c i d r this H)
    as (g & _ & _ & _ & _ & _ & _ & _ & _ & _ & _ & Hf).
  assert (H0 : whole_frames this).
  { unfold whole_frames. rewrite Hf. unfold _initialFrame.
    destruct Hw as [-> | Hc]; [split; reflexivity|].
    destruct (_reversed this); [split; exact Hc|split; reflexivity]. }
  exact (proj1 (run_preserves rev (fun _ => whole_frames) (whole_frames_run_call rev)
                  cs w this w' this' H0 Hrun)).
Qed.

Lemma frames_stay_whole_witness :
  let this :=
    returned (constructor StepAnimation_0_0_3 (stepanimation_markup 100 100 250 100)
                None None None) in
  let s := outcome StepAnimation_0_0_3 [Next; Next; Previous; Next; Next]
             (fresh_window, this) in
  is_integer (_frame (snd s)) = true.
Proof.
  intros this s.
  apply (frames_stay_whole StepAnimation_0_0_3 (stepanimation_markup 100 100 250 100)
           None None None this (snd s) fresh_window (fst s)
           [Next; Next; Previous; Next; Next]).
  - vm_compute. reflexivity.
  - left. vm_compute. reflexivity.
  - vm_compute. reflexivity.
Defined.

(** ** The translation of a step in range *)

(** X26.  On an instance whose frame count and frame height are finite and not
    negative, which is what every construction with non-zero extents and a
    sheet no shorter than its container gives, [next()] and [previous()] alike
    leave the sheet with a translation along X when the instance is horizontal
    and along Y otherwise, by the new frame times the frame height
    [_frameInfo.height] on either axis, an offset the browser keeps. *)
Theorem step_in_range_translates_by_frame_height (rev : revision)
  (this : StepAnimation) (g : HTMLElement) (forward : bool) (cq h : Q) :
  graphic (elements this) = Some g ->
  count (_frameInfo this) = Fin cq -> 0 <= cq ->
  height (_frameInfo this) = Fin h -> 0 <= h ->
  exists this' g',
    (if forward then next rev this else previous rev this) = Normal this'
    /\ graphic (elements this') = Some g'
    /\ valid_offset (mul (_frame this') (height (_frameInfo this'))) = true
    /\ style_transform g'
       = Some (TranslateMinus (if _isHorizontal rev this' then X else Y)
                 (mul (_frame this') (height (_frameInfo this')))).
Proof.
  intros Hg Hc Hcq Hh Hh0.
  destruct (step_translates_by_frame_height rev this g forward Hg)
    as (t & g' & Hrun & Hg' & Hst).
  exists t, g'. split; [exact Hrun|]. split; [exact Hg'|]. split; [|exact Hst].
  destruct (step_returned rev forward this t Hrun)
    as (g0 & x & _ & _ & Hf & _ & (Hfi & _)).
  rewrite Hf, Hfi.
  exact (settled_offset_valid (set_frame x this) cq h Hc Hcq Hh Hh0).
Qed.

Lemma step_in_range_translates_by_frame_height_witness :
  exists this' g',
    previous StepAnimation_0_0_3 (five_frames_reversed StepAnimation_0_0_3)
    = Normal this'
    /\ graphic (elements this') = Some g'
    /\ valid_offset (mul (_frame this') (height (_frameInfo this'))) = true
    /\ style_transform g'
       = Some (TranslateMinus (if _isHorizontal StepAnimation_0_0_3 this' then X else Y)
                 (mul (_frame this') (height (_frameInfo this')))).
Proof.
  apply (step_in_range_translates_by_frame_height StepAnimation_0_0_3
           (five_frames_reversed StepAnimation_0_0_3)
           (mkElement 500 100 ["stepanimation__graphic"] None []) false
           (inject_Z 500 / inject_Z 100 - 1) (inject_Z 100));
    vm_compute; (reflexivity || discriminate).
Defined.
